(** * Lane-line detection pipeline ([advanced_lane_lines.py])

    A shallow embedding of the per-frame lane pipeline: threshold masks,
    sliding-window and prior-guided lane search, polynomial fitting,
    curvature / lateral offset, and the tracker state carried between frames.

    Conventions.
    - A single-channel frame is a row-major [list (list Z)]; its shape is
      (number of rows, length of the first row).
    - Pixel coordinates and counts are [Z]; fit coefficients and metric
      quantities are exact rationals [Q] (float rounding is idealised away).
    - Python exceptions are the [Raise] constructor of [result].
    - The radius of curvature needs [x ** 1.5] and IEEE division by zero:
      it is computed over [R] extended with the IEEE special values. *)

From Stdlib Require Import ZArith QArith Qround Qreals List Bool Lia Lra Reals Field.
From Stdlib Require Lqa.
Import ListNotations.

Open Scope Z_scope.

(** ** Python exceptions and results *)

Inductive exn : Type :=
| TypeError    (* numpy.polyfit: "expected non-empty vector for x" *)
| ValueError   (* numpy.argmax: "attempt to get argmax of an empty sequence" *)
| LinAlgError. (* numpy.linalg.lstsq: "SVD did not converge" *)

Inductive result (A : Type) : Type :=
| Ok (a : A)
| Raise (e : exn).
Arguments Ok {A} a.
Arguments Raise {A} e.

Definition bind {A B : Type} (r : result A) (k : A -> result B) : result B :=
  match r with
  | Ok a => k a
  | Raise e => Raise e
  end.

Notation "x <- r ;; k" := (bind r (fun x => k))
  (at level 61, r at next level, right associativity).
Notation "' p <- r ;; k" := (bind r (fun p => k))
  (at level 61, p pattern, r at next level, right associativity).

Definition is_ok {A : Type} (r : result A) : bool :=
  match r with Ok _ => true | Raise _ => false end.

(** ** Frames *)

Definition Image := list (list Z).

(** [binary_warped.shape] : (height, width). *)
Definition shape (img : Image) : Z * Z :=
  (Z.of_nat (length img), Z.of_nat (length (hd [] img))).

Definition height (img : Image) : Z := fst (shape img).
Definition width (img : Image) : Z := snd (shape img).

(** ** numpy helpers *)

Module Np.

(** [a[lo:]] for [0 <= lo]. *)
Definition drop {A : Type} (lo : Z) (a : list A) : list A :=
  skipn (Z.to_nat lo) a.

(** [a[:hi]] for [0 <= hi]. *)
Definition take {A : Type} (hi : Z) (a : list A) : list A :=
  firstn (Z.to_nat hi) a.

Definition zsum (l : list Z) : Z := fold_right Z.add 0 l.

Fixpoint add_rows (acc row : list Z) : list Z :=
  match acc, row with
  | a :: acc', r :: row' => (a + r) :: add_rows acc' row'
  | _, _ => acc
  end.

(** [np.sum(rows, axis=0)] for rows of length [w]. *)
Definition sum_axis0 (w : Z) (rows : Image) : list Z :=
  fold_left add_rows rows (repeat 0 (Z.to_nat w)).

(** Scan for the first maximum: [best] is the running maximum, [bi] its
    index, [i] the index of the head of [l]. *)
Fixpoint argmax_from (l : list Z) (i bi best : Z) : Z :=
  match l with
  | [] => bi
  | v :: l' =>
      if best <? v then argmax_from l' (i + 1) i v
      else argmax_from l' (i + 1) bi best
  end.

(** [np.argmax]: index of the first occurrence of the maximum; raises
    [ValueError] on an empty array. *)
Definition argmax (l : list Z) : result Z :=
  match l with
  | [] => Raise ValueError
  | v :: l' => Ok (argmax_from l' 1 0 v)
  end.

(** Column indices of the nonzero entries of one row, from column [x]. *)
Fixpoint nonzero_row (y x : Z) (row : list Z) : list (Z * Z) :=
  match row with
  | [] => []
  | v :: row' =>
      if v =? 0 then nonzero_row y (x + 1) row'
      else (y, x) :: nonzero_row y (x + 1) row'
  end.

Fixpoint nonzero_from (y : Z) (img : Image) : list (Z * Z) :=
  match img with
  | [] => []
  | row :: img' => nonzero_row y 0 row ++ nonzero_from (y + 1) img'
  end.

(** [img.nonzero()]: the (row, column) pairs of the nonzero entries in
    row-major order; [nonzeroy] is [map fst], [nonzerox] is [map snd]. *)
Definition nonzero (img : Image) : list (Z * Z) := nonzero_from 0 img.

(** [np.int(np.mean(xs))]: the mean truncated toward zero. *)
Definition int_mean (xs : list Z) : Z :=
  Z.quot (zsum xs) (Z.of_nat (length xs)).

End Np.

(** ** Sliding-window lane search ([find_lane_pixels]) *)

(** HYPERPARAMETERS of [find_lane_pixels]. *)
Definition nwindows : Z := 9.
Definition margin : Z := 100.
Definition minpix : Z := 50.

(** The four pixel coordinate arrays returned by a search. *)
Record LanePixels : Type := mkLanePixels {
  leftx : list Z;
  lefty : list Z;
  rightx : list Z;
  righty : list Z
}.

(** Loop-carried variables of the window loop.  The index arrays
    [left_lane_inds] / [right_lane_inds] index [nonzerox] / [nonzeroy];
    the model carries the indexed (y, x) pairs themselves. *)
Record WinState : Type := mkWinState {
  leftx_current : Z;
  rightx_current : Z;
  left_lane_inds : list (Z * Z);
  right_lane_inds : list (Z * Z)
}.

Definition win_y_low (h window_height window : Z) : Z :=
  h - (window + 1) * window_height.

Definition win_y_high (h window_height window : Z) : Z :=
  h - window * window_height.

(** [(nonzeroy >= win_y_low) & (nonzeroy < win_y_high) &
     (nonzerox >= win_x_low) & (nonzerox < win_x_high)] for the pixel [p]. *)
Definition in_window (y_low y_high x_low x_high : Z) (p : Z * Z) : bool :=
  (y_low <=? fst p) && (fst p <? y_high) &&
  (x_low <=? snd p) && (snd p <? x_high).

(** Pixels selected by a window centred at [x_current]. *)
Definition good_inds (h window_height window x_current : Z)
    (nz : list (Z * Z)) : list (Z * Z) :=
  filter (in_window (win_y_low h window_height window)
                    (win_y_high h window_height window)
                    (x_current - margin) (x_current + margin)) nz.

(** [if len(good_inds) > minpix: x_current = np.int(np.mean(nonzerox[good_inds]))]. *)
Definition recenter (x_current : Z) (good : list (Z * Z)) : Z :=
  if minpix <? Z.of_nat (length good)
  then Np.int_mean (map snd good)
  else x_current.

(** One iteration of [for window in range(nwindows)]. *)
Definition window_step (h window_height : Z) (nz : list (Z * Z))
    (s : WinState) (window : Z) : WinState :=
  let good_left_inds := good_inds h window_height window (leftx_current s) nz in
  let good_right_inds := good_inds h window_height window (rightx_current s) nz in
  {| leftx_current := recenter (leftx_current s) good_left_inds;
     rightx_current := recenter (rightx_current s) good_right_inds;
     left_lane_inds := left_lane_inds s ++ good_left_inds;
     right_lane_inds := right_lane_inds s ++ good_right_inds |}.

(** [range(n)] *)
Definition range (n : Z) : list Z := map Z.of_nat (seq 0 (Z.to_nat n)).

(** [np.sum(binary_warped[binary_warped.shape[0]//2:,:], axis=0)] *)
Definition histogram (binary_warped : Image) : list Z :=
  Np.sum_axis0 (width binary_warped)
               (Np.drop (height binary_warped / 2) binary_warped).

Definition midpoint (binary_warped : Image) : Z :=
  Z.of_nat (length (histogram binary_warped)) / 2.

Definition leftx_base (binary_warped : Image) : result Z :=
  Np.argmax (Np.take (midpoint binary_warped) (histogram binary_warped)).

Definition rightx_base (binary_warped : Image) : result Z :=
  i <- Np.argmax (Np.drop (midpoint binary_warped) (histogram binary_warped)) ;;
  Ok (i + midpoint binary_warped).

Definition window_height (binary_warped : Image) : Z :=
  height binary_warped / nwindows.

(** The loop state before window [k], that is after the iterations
    [range(k)], started at the two bases. *)
Definition window_state (binary_warped : Image) (lbase rbase k : Z) : WinState :=
  fold_left (window_step (height binary_warped) (window_height binary_warped)
                         (Np.nonzero binary_warped))
            (range k)
            (mkWinState lbase rbase [] []).

(** The state after the whole loop [for window in range(nwindows)]. *)
Definition run_windows (binary_warped : Image) (lbase rbase : Z) : WinState :=
  window_state binary_warped lbase rbase nwindows.

(** [find_lane_pixels], without the visualisation image [out_img]. *)
Definition find_lane_pixels (binary_warped : Image) : result LanePixels :=
  lbase <- leftx_base binary_warped ;;
  rbase <- rightx_base binary_warped ;;
  let s := run_windows binary_warped lbase rbase in
  Ok {| leftx := map snd (left_lane_inds s);
        lefty := map fst (left_lane_inds s);
        rightx := map snd (right_lane_inds s);
        righty := map fst (right_lane_inds s) |}.

(** ** Polynomial fits and [numpy.polyfit] *)

(** [x = a*y^2 + b*y + c]; [fit[0]], [fit[1]], [fit[2]] in the source. *)
Record Fit : Type := mkFit { fit0 : Q; fit1 : Q; fit2 : Q }.

Definition Qlt_bool (p q : Q) : bool := negb (Qle_bool q p).

(** [fit[0]*y**2 + fit[1]*y + fit[2]] *)
Definition poly_eval (f : Fit) (y : Q) : Q :=
  (fit0 f * (y * y) + fit1 f * y + fit2 f)%Q.

Module Polyfit.
Open Scope Q_scope.

(** Sum of an array, kept in lowest terms. *)
Definition qsum (l : list Q) : Q :=
  fold_right (fun q s => Qred (q + s)) 0 l.

(** [sum(u_i * v_i)] over two parallel arrays. *)
Definition dot (u v : list Q) : Q := qsum (map (fun p => fst p * snd p) (combine u v)).

(** [q ** k] *)
Fixpoint pow (k : nat) (q : Q) : Q :=
  match k with
  | O => 1
  | S k' => q * pow k' q
  end.

(** Power sums [sum(y^k)] and moments [sum(x * y^k)]. *)
Definition power_sum (k : nat) (ys : list Q) : Q := qsum (map (pow k) ys).
Definition moment (k : nat) (ys xs : list Q) : Q :=
  dot xs (map (pow k) ys).

Definition det3 (a11 a12 a13 a21 a22 a23 a31 a32 a33 : Q) : Q :=
  a11 * (a22 * a33 - a23 * a32)
  - a12 * (a21 * a33 - a23 * a31)
  + a13 * (a21 * a32 - a22 * a31).

(** Determinant of the normal equations of the basis [(y^2, y, 1)]; it is
    nonzero when the data has three distinct abscissas. *)
Definition normal_det (ys : list Q) : Q :=
  det3 (power_sum 4 ys) (power_sum 3 ys) (power_sum 2 ys)
       (power_sum 3 ys) (power_sum 2 ys) (power_sum 1 ys)
       (power_sum 2 ys) (power_sum 1 ys) (power_sum 0 ys).

(** The unique least-squares solution (Cramer's rule on the normal
    equations), when [normal_det] is nonzero. *)
Definition full_rank_solution (ys xs : list Q) : Fit :=
  let d := normal_det ys in
  let s0 := power_sum 0 ys in
  let s1 := power_sum 1 ys in
  let s2 := power_sum 2 ys in
  let s3 := power_sum 3 ys in
  let s4 := power_sum 4 ys in
  let t0 := moment 0 ys xs in
  let t1 := moment 1 ys xs in
  let t2 := moment 2 ys xs in
  {| fit0 := Qred (det3 t2 s3 s2  t1 s2 s1  t0 s1 s0 / d);
     fit1 := Qred (det3 s4 t2 s2  s3 t1 s1  s2 t0 s0 / d);
     fit2 := Qred (det3 s4 s3 t2  s3 s2 t1  s2 s1 t0 / d) |}.

(** Distinct abscissas, in order of first occurrence. *)
Fixpoint distinct (ys : list Q) : list Q :=
  match ys with
  | [] => []
  | y :: ys' => y :: filter (fun z => negb (Qeq_bool z y)) (distinct ys')
  end.

(** Mean of the ordinates whose abscissa is [y]. *)
Definition group_mean (y : Q) (ys xs : list Q) : Q :=
  let g := filter (fun p => Qeq_bool (fst p) y) (combine ys xs) in
  qsum (map snd g) / inject_Z (Z.of_nat (length g)).

(** With fewer than three distinct abscissas the least-squares problem is
    rank deficient.  [polyfit] divides every column of the Vandermonde
    matrix by its norm and [lstsq] returns the solution of minimum norm in
    those scaled coordinates: among the quadratics through the group means
    [(y_j, m_j)], the one that minimises
    [s4 * a^2 + s2 * b^2 + s0 * c^2]. *)
Definition min_norm_solution (ys xs : list Q) : Fit :=
  let s0 := power_sum 0 ys in
  let s2 := power_sum 2 ys in
  let s4 := power_sum 4 ys in
  match distinct ys with
  | [y1] =>
      let m1 := group_mean y1 ys xs in
      let g := y1 * y1 * (y1 * y1) / s4 + y1 * y1 / s2 + 1 / s0 in
      let l1 := m1 / g in
      {| fit0 := Qred (y1 * y1 * l1 / s4);
         fit1 := Qred (y1 * l1 / s2);
         fit2 := Qred (l1 / s0) |}
  | [y1; y2] =>
      let m1 := group_mean y1 ys xs in
      let m2 := group_mean y2 ys xs in
      let g11 := y1 * y1 * (y1 * y1) / s4 + y1 * y1 / s2 + 1 / s0 in
      let g12 := y1 * y1 * (y2 * y2) / s4 + y1 * y2 / s2 + 1 / s0 in
      let g22 := y2 * y2 * (y2 * y2) / s4 + y2 * y2 / s2 + 1 / s0 in
      let dg := g11 * g22 - g12 * g12 in
      let l1 := (g22 * m1 - g12 * m2) / dg in
      let l2 := (g11 * m2 - g12 * m1) / dg in
      {| fit0 := Qred ((y1 * y1 * l1 + y2 * y2 * l2) / s4);
         fit1 := Qred ((y1 * l1 + y2 * l2) / s2);
         fit2 := Qred ((l1 + l2) / s0) |}
  | _ => mkFit 0 0 0
  end.

(** [np.polyfit(x = ys, y = xs, deg = 2)] in exact arithmetic.
    - an empty [ys] raises [TypeError] ("expected non-empty vector for x");
    - three or more distinct abscissas: the least-squares quadratic;
    - otherwise the system is rank deficient: numpy emits a [RankWarning]
      (a warning, not an exception) and returns the minimum-norm solution;
      when moreover every abscissa is 0 two columns of the scaled
      Vandermonde matrix are 0/0 and [lstsq] raises [LinAlgError]. *)
Definition polyfit (ys xs : list Q) : result Fit :=
  match ys with
  | [] => Raise TypeError
  | _ =>
      if negb (Qeq_bool (normal_det ys) 0) then Ok (full_rank_solution ys xs)
      else if Qeq_bool (power_sum 2 ys) 0 then Raise LinAlgError
      else Ok (min_norm_solution ys xs)
  end.

End Polyfit.

Definition polyfitZ (ys xs : list Z) : result Fit :=
  Polyfit.polyfit (map inject_Z ys) (map inject_Z xs).

(** ** Fitting the searched pixels *)

(** [np.linspace(0, n-1, n)] *)
Definition linspace0 (n : Z) : list Q := map inject_Z (range n).

(** [fit[0]*ploty**2 + fit[1]*ploty + fit[2]] over an array. *)
Definition poly_eval_all (f : Fit) (ploty : list Q) : list Q :=
  map (poly_eval f) ploty.

(** [fit_polynomial].  The [try] block of the source only computes the
    plotted abscissas [left_fitx], [right_fitx], which are local and not
    returned; its [except TypeError] placeholder [1*ploty**2 + 1*ploty]
    is not reachable once both [np.polyfit] calls have returned arrays.
    The visualisation image is not modelled. *)
Definition fit_polynomial (binary_warped : Image) : result (Fit * Fit) :=
  px <- find_lane_pixels binary_warped ;;
  left_fit <- polyfitZ (lefty px) (leftx px) ;;
  right_fit <- polyfitZ (righty px) (rightx px) ;;
  Ok (left_fit, right_fit).

(** [fit_poly]: fits again and samples both curves on every row. *)
Definition fit_poly (img_height : Z) (px : LanePixels)
    : result (list Q * list Q * list Q) :=
  left_fit <- polyfitZ (lefty px) (leftx px) ;;
  right_fit <- polyfitZ (righty px) (rightx px) ;;
  let ploty := linspace0 img_height in
  Ok (poly_eval_all left_fit ploty, poly_eval_all right_fit ploty, ploty).

(** [(nonzerox > fit(nonzeroy) - margin) & (nonzerox < fit(nonzeroy) + margin)] *)
Definition near_poly (f : Fit) (p : Z * Z) : bool :=
  let c := poly_eval f (inject_Z (fst p)) in
  Qlt_bool (c - inject_Z margin) (inject_Z (snd p)) &&
  Qlt_bool (inject_Z (snd p)) (c + inject_Z margin).

(** The pixel selection of [search_around_poly]. *)
Definition search_pixels (binary_warped : Image) (left_fit right_fit : Fit)
    : LanePixels :=
  let nz := Np.nonzero binary_warped in
  let l := filter (near_poly left_fit) nz in
  let r := filter (near_poly right_fit) nz in
  {| leftx := map snd l; lefty := map fst l;
     rightx := map snd r; righty := map fst r |}.

(** [search_around_poly], without the visualisation image [result]. *)
Definition search_around_poly (binary_warped : Image)
    (left_fit right_fit : Fit) : result (Fit * Fit) :=
  let px := search_pixels binary_warped left_fit right_fit in
  left_fit' <- polyfitZ (lefty px) (leftx px) ;;
  right_fit' <- polyfitZ (righty px) (rightx px) ;;
  _ <- fit_poly (height binary_warped) px ;;
  Ok (left_fit', right_fit').

(** ** Curvature and lateral offset ([curvature_in_meters]) *)

(** A float64 value in exact arithmetic: a real, or an IEEE special. *)
Inductive float : Type :=
| Finite (r : R)
| PosInf
| NegInf
| NaN.

(** numpy's float64 division of two finite values: a zero divisor gives a
    signed infinity, or NaN for 0/0, with a [RuntimeWarning] and no
    exception. *)
Definition fdiv (n d : R) : float :=
  if Req_dec_T d 0 then
    if Rlt_dec 0 n then PosInf
    else if Rlt_dec n 0 then NegInf
    else NaN
  else Finite (n / d).

Definition ym_per_pix : Q := 30 # 720.
Definition xm_per_pix : Q := 37 # 7000.

(** [((1 + (2*a*y_eval*ym_per_pix + b)**2)**1.5) / np.absolute(2*a)] for
    the metric fit [(a, b, _)]. *)
Definition curverad (fit_cr : Fit) (y_eval : Q) : float :=
  let a := Q2R (fit0 fit_cr) in
  let b := Q2R (fit1 fit_cr) in
  let s := (2 * a * Q2R y_eval * Q2R ym_per_pix + b)%R in
  fdiv (Rpower (1 + s * s) (3 / 2)) (Rabs (2 * a)).

(** [get_curvature_radius(line, y)]:
    [np.power(1 + np.square(2*a*y + b), 3/2) / np.abs(2*c)]. *)
Definition get_curvature_radius (line : Fit) (y : Q) : float :=
  let a := Q2R (fit0 line) in
  let b := Q2R (fit1 line) in
  let c := Q2R (fit2 line) in
  fdiv (Rpower (1 + (2 * a * Q2R y + b) * (2 * a * Q2R y + b)) (3 / 2))
       (Rabs (2 * c)).

(** [np.rint]: round to the nearest integer, ties to even.  It is applied
    to the exact value here; the code applies it to a float64 product,
    whose rounding error decides an exact tie either way.  The statements
    about the offset hold under either choice on a tie. *)
Definition rint (q : Q) : Z :=
  let f := Qfloor q in
  let r := (q - inject_Z f)%Q in
  if Qlt_bool r (1 # 2) then f
  else if Qlt_bool (1 # 2) r then f + 1
  else if Z.even f then f else f + 1.

(** [round(q, 2)] *)
Definition round2 (q : Q) : Q := Qred (inject_Z (rint (q * 100)) / 100).

(** The points handed to [np.polyfit] for the metric fit: the pixel-space
    curve [fit] sampled on every row [ys], both axes scaled to metres. *)
Definition metric_points (h : Z) (fit : Fit) : list Q * list Q :=
  let ys := linspace0 h in
  let xs := poly_eval_all fit ys in
  (map (fun y => y * ym_per_pix)%Q ys, map (fun x => x * xm_per_pix)%Q xs).

(** [left_fit_cr] / [right_fit_cr]: the refit of lines 451-452, as exact
    least squares.  For a straight lane the exact leading coefficient is
    0, while float64 [np.polyfit] returns a value of the order of 1e-17;
    the statements about the radii are therefore made on the radius
    expression [curverad], for whatever coefficients the refit returned. *)
Definition metric_fit (h : Z) (fit : Fit) : result Fit :=
  let '(ysm, xsm) := metric_points h fit in
  Polyfit.polyfit ysm xsm.

(** [np.max] of a non-empty array. *)
Definition qmax_list (l : list Q) : result Q :=
  match l with
  | [] => Raise ValueError
  | q :: l' => Ok (fold_left (fun m x => if Qlt_bool m x then x else m) l' q)
  end.

(** [dist_from_center]: lines 462-466. *)
Definition dist_from_center (h w : Z) (left_fit right_fit : Fit) : Q :=
  let position := w / 2 in
  let left_intercept := poly_eval left_fit (inject_Z h) in
  let right_intercept := poly_eval right_fit (inject_Z h) in
  let center := ((left_intercept + right_intercept) / 2)%Q in
  round2 ((inject_Z position - center) * xm_per_pix).

Definition curvature_in_meters (binary_image : Image)
    (left_fit right_fit : Fit) : result (float * float * Q) :=
  let '(h, w) := shape binary_image in
  left_fit_cr <- metric_fit h left_fit ;;
  right_fit_cr <- metric_fit h right_fit ;;
  y_eval <- qmax_list (linspace0 h) ;;
  Ok (curverad left_fit_cr y_eval,
      curverad right_fit_cr y_eval,
      dist_from_center h w left_fit right_fit).

(** ** Rescaling of the gradient channels *)

(** [np.max] of a flattened, non-empty frame. *)
Definition np_max (l : list R) : R :=
  match l with
  | [] => 0%R
  | v :: l' => fold_left Rmax l' v
  end.

(** [255*abs_sobel/np.max(abs_sobel)] of [abs_sobel_thresh], before the
    cast to [np.uint8]. *)
Definition rescale_abs_sobel (abs_sobel : list R) : list float :=
  map (fun v => fdiv (255 * v) (np_max abs_sobel)) abs_sobel.

(** [magnitude/scale_factor] of [mag_thresh] with
    [scale_factor = np.max(magnitude)/255], before the cast.  The two
    divisions are exact here; in float64 each is rounded, so the quotient
    of a pixel at the maximum can fall just below 255 and be stored as
    254.  The statements about this channel hold for either value. *)
Definition rescale_magnitude (magnitude : list R) : list float :=
  let scale_factor := (np_max magnitude / 255)%R in
  map (fun v => fdiv v scale_factor) magnitude.

(** The cast to [np.uint8]: truncation for a value in range; the result
    for NaN and the infinities is left to the platform ([special]). *)
Definition to_uint8 (special : Z) (x : float) : Z :=
  match x with
  | Finite r => Int_part r mod 256
  | _ => special
  end.

Definition scaled_sobel (special : Z) (abs_sobel : list R) : list Z :=
  map (to_uint8 special) (rescale_abs_sobel abs_sobel).

Definition scaled_magnitude (special : Z) (magnitude : list R) : list Z :=
  map (to_uint8 special) (rescale_magnitude magnitude).

(** ** Threshold masks ([combined_thresh]) *)

(** The per-pixel quantities that the OpenCV stages (grayscale, Sobel, HLS
    conversion) and the rescaling to 8 bits hand to the thresholding code. *)
Record Features : Type := mkFeatures {
  scaled_sobel_x : Z;        (* [scaled_sobel] of [abs_sobel_thresh], orient 'x' *)
  scaled_sobel_y : Z;        (* [scaled_sobel] of [abs_sobel_thresh], orient 'y' *)
  magnitude : Z;             (* rescaled [magnitude] of [mag_thresh] *)
  direction_gradient : Q;    (* [np.arctan2(abs_sobely, abs_sobelx)] *)
  hls_H : Z;                 (* [image_hls[:, :, 0]] *)
  hls_S : Z                  (* [image_hls[:, :, 2]] *)
}.

Definition b2z (b : bool) : Z := if b then 1 else 0.

(** [m[(v >= thresh[0]) & (v <= thresh[1])] = 1] on a zero mask *)
Definition abs_sobel_thresh (thresh : Z * Z) (scaled_sobel : Z) : Z :=
  b2z ((fst thresh <=? scaled_sobel) && (scaled_sobel <=? snd thresh)).

Definition mag_thresh (thresh : Z * Z) (mag : Z) : Z :=
  b2z ((fst thresh <=? mag) && (mag <=? snd thresh)).

Definition dir_thresh (thresh : Q * Q) (dir : Q) : Z :=
  b2z (Qle_bool (fst thresh) dir && Qle_bool dir (snd thresh)).

(** [m[(H > thresh[0]) & (H <= thresh[1])] = 1] *)
Definition hue_thresh (thresh : Z * Z) (h : Z) : Z :=
  b2z ((fst thresh <? h) && (h <=? snd thresh)).

Definition saturation_thresh (thresh : Z * Z) (s : Z) : Z :=
  b2z ((fst thresh <? s) && (s <=? snd thresh)).

Record Thresholds : Type := mkThresholds {
  abs_thresh : Z * Z;
  magnitude_thresh : Z * Z;
  angle_thresh : Q * Q;
  h_thresh : Z * Z;
  s_thresh : Z * Z
}.

(** Default arguments of [combined_thresh]. *)
Definition default_thresholds : Thresholds :=
  {| abs_thresh := (20, 100);
     magnitude_thresh := (30, 100);
     angle_thresh := (7 # 10, 14 # 10);
     h_thresh := (10, 35);
     s_thresh := (120, 255) |}.

(** One pixel of [combined_binary]:
    [(gradx == 1) & (grady == 1) & (mag_binary == 1) & (dir_binary == 1)
     | (h_binary == 1) & (s_binary == 1)]; [&] binds tighter than [|]. *)
Definition combined_pixel (t : Thresholds) (p : Features) : Z :=
  let gradx := abs_sobel_thresh (abs_thresh t) (scaled_sobel_x p) in
  let grady := abs_sobel_thresh (abs_thresh t) (scaled_sobel_y p) in
  let mag_binary := mag_thresh (magnitude_thresh t) (magnitude p) in
  let dir_binary := dir_thresh (angle_thresh t) (direction_gradient p) in
  let h_binary := hue_thresh (h_thresh t) (hls_H p) in
  let s_binary := saturation_thresh (s_thresh t) (hls_S p) in
  b2z ((gradx =? 1) && (grady =? 1) && (mag_binary =? 1) && (dir_binary =? 1)
       || (h_binary =? 1) && (s_binary =? 1)).

(** [combined_thresh] over a whole frame of per-pixel features. *)
Definition combined_thresh (t : Thresholds) (img : list (list Features)) : Image :=
  map (map (combined_pixel t)) img.

(** ** Perspective quadrilaterals ([perspective_transform]) *)

(** [source] of [perspective_transform] for a frame of width [W] and
    height [H] (corners as (x, y); [/] is true division). *)
Definition source_quad (W H : Z) : list (Q * Q) :=
  [ (inject_Z W / 2 - 55, inject_Z H / 2 + 100);
    (inject_Z W / 6 - 10, inject_Z H);
    (inject_Z W * 5 / 6 + 60, inject_Z H);
    (inject_Z W / 2 + 55, inject_Z H / 2 + 100) ]%Q.

(** [destination] of [perspective_transform]. *)
Definition destination_quad (W H : Z) : list (Q * Q) :=
  [ (inject_Z W / 4, 0);
    (inject_Z W / 4, inject_Z H);
    (inject_Z W * 3 / 4, inject_Z H);
    (inject_Z W * 3 / 4, 0) ]%Q.

(** A 3x3 matrix of a perspective transform, row by row. *)
Record Matrix3 : Type := mkMatrix3 {
  m11 : Q; m12 : Q; m13 : Q;
  m21 : Q; m22 : Q; m23 : Q;
  m31 : Q; m32 : Q; m33 : Q
}.

Definition Matrix3_eq (A B : Matrix3) : Prop :=
  (m11 A == m11 B /\ m12 A == m12 B /\ m13 A == m13 B
   /\ m21 A == m21 B /\ m22 A == m22 B /\ m23 A == m23 B
   /\ m31 A == m31 B /\ m32 A == m32 B /\ m33 A == m33 B)%Q.

(** Modelled from the spec: projecting a point through a transform, as
    OpenCV documents it for [cv2.warpPerspective] and
    [cv2.perspectiveTransform] (OpenCV is not part of the repository's
    source): [(x, y)] goes to
    [((m11 x + m12 y + m13) / t, (m21 x + m22 y + m23) / t)] with
    [t = m31 x + m32 y + m33]; there is no image point when [t = 0]. *)
Definition project (M : Matrix3) (p : Q * Q) : option (Q * Q) :=
  let '(x, y) := p in
  let t := (m31 M * x + m32 M * y + m33 M)%Q in
  if Qeq_bool t 0 then None
  else Some ((m11 M * x + m12 M * y + m13 M) / t,
             (m21 M * x + m22 M * y + m23 M) / t)%Q.

(** Modelled from the spec: the two equations that the documentation of
    [cv2.getPerspectiveTransform(src, dst)] states for one pair of
    corresponding points [p] of [src] and [q] of [dst],
    [t * (x', y', 1) = M * (x, y, 1)]. *)
Definition point_equations (M : Matrix3) (p q : Q * Q) : Prop :=
  let '(x, y) := p in
  let '(x', y') := q in
  let t := (m31 M * x + m32 M * y + m33 M)%Q in
  (m11 M * x + m12 M * y + m13 M == t * x'
   /\ m21 M * x + m22 M * y + m23 M == t * y')%Q.

(** Modelled from the spec: the linear system of
    [cv2.getPerspectiveTransform]: the equations of the four pairs, with
    the last coefficient fixed to 1. *)
Definition transform_equations (src dst : list (Q * Q)) (M : Matrix3) : Prop :=
  (m33 M == 1)%Q /\ Forall2 (point_equations M) src dst.

(** Modelled from the spec: [cv2.getPerspectiveTransform(src, dst)]
    returns [M].  OpenCV solves the system above for the eight remaining
    coefficients, in exact arithmetic here: [M] is its solution and the
    system has no other.  When the system is singular the solve does not
    determine a transform, and the relation holds of no matrix. *)
Definition getPerspectiveTransform_returns (src dst : list (Q * Q))
    (M : Matrix3) : Prop :=
  transform_equations src dst M
  /\ forall M', transform_equations src dst M' -> Matrix3_eq M' M.

(** [Minv] of line 167 in closed form, for a frame of width [W] and
    height [H]: the solution of the system for
    [cv2.getPerspectiveTransform(destination, source)]. *)
Definition inverse_transform (W H : Z) : Matrix3 :=
  let w := inject_Z W in
  let h := inject_Z H in
  let t := (330 / (2 * w + 210))%Q in
  {| m11 := 220 / w;
     m12 := ((w / 6 - 10) * t - w / 2 + 55) / h;
     m13 := w / 2 - 110;
     m21 := 0;
     m22 := (h * t - (h / 2 + 100)) / h;
     m23 := h / 2 + 100;
     m31 := 0;
     m32 := (t - 1) / h;
     m33 := 1 |}%Q.

(** The projection of [p] through [M] exists and is the point [q]. *)
Definition projects_to (M : Matrix3) (p q : Q * Q) : Prop :=
  exists q', project M p = Some q' /\ (fst q' == fst q)%Q /\ (snd q' == snd q)%Q.

(** Further solutions of the two systems of a 1280x200 frame. *)
Definition second_inverse_200 : Matrix3 :=
  {| m11 := -31067 # 32192; m12 := -59311 # 60360; m13 := 306850 # 503;
     m21 := -305 # 1006; m22 := 0; m23 := 200;
     m31 := -61 # 40240; m32 := 0; m33 := 1 |}.

Definition first_forward_200 : Matrix3 :=
  {| m11 := 0; m12 := 0; m13 := 0;
     m21 := 0; m22 := 0; m23 := 0;
     m31 := 0; m32 := -1 # 200; m33 := 1 |}.

Definition second_forward_200 : Matrix3 :=
  {| m11 := 0; m12 := -1; m13 := 200;
     m21 := 0; m22 := 0; m23 := 0;
     m31 := 0; m32 := -1 # 200; m33 := 1 |}.

(** ** Tracker state and the frame pipeline *)

(** [class Line]; the three radius attributes are never written after
    construction and are left out. *)
Record Line : Type := mkLine {
  found : bool;
  previous_fit : option Fit
}.

(** The module-level objects [left_line] and [right_line]. *)
Record Tracker : Type := mkTracker {
  left_line : Line;
  right_line : Line
}.

(** [Line()] for both lanes. *)
Definition initial_tracker : Tracker :=
  {| left_line := mkLine false None; right_line := mkLine false None |}.

(** What a completed frame hands to the renderer. *)
Record FrameOutput : Type := mkFrameOutput {
  out_left_fit : Fit;
  out_right_fit : Fit;
  out_left_curverad : float;
  out_right_curverad : float;
  out_dist_from_center : Q
}.

Inductive Strategy : Type := SlidingWindow | PriorGuided.

(** [if left_line.found == False or right_line.found == False] *)
Definition strategy (t : Tracker) : Strategy :=
  if negb (found (left_line t)) || negb (found (right_line t))
  then SlidingWindow else PriorGuided.

(** Reading [previous_fit[0]] of a [None] raises [TypeError]. *)
Definition get_fit (l : Line) : result Fit :=
  match previous_fit l with
  | Some f => Ok f
  | None => Raise TypeError
  end.

(** The lane fits of the frame, by the strategy the tracker selects. *)
Definition fit_lanes (t : Tracker) (binary_warped : Image) : result (Fit * Fit) :=
  match strategy t with
  | SlidingWindow => fit_polynomial binary_warped
  | PriorGuided =>
      lf <- get_fit (left_line t) ;;
      rf <- get_fit (right_line t) ;;
      search_around_poly binary_warped lf rf
  end.

(** The part of [pipeline] that runs on [binary_warped] (the undistort,
    threshold and warp stages before it neither read nor write the
    tracker).  An exception leaves before the two assignments at the end,
    so the tracker is then unchanged. *)
Definition pipeline (t : Tracker) (binary_warped : Image)
    : result FrameOutput * Tracker :=
  match
    '(left_fit, right_fit) <- fit_lanes t binary_warped ;;
    '(l, r, d) <- curvature_in_meters binary_warped left_fit right_fit ;;
    Ok (mkFrameOutput left_fit right_fit l r d)
  with
  | Ok out =>
      (Ok out,
       {| left_line := mkLine true (Some (out_left_fit out));
          right_line := mkLine true (Some (out_right_fit out)) |})
  | Raise e => (Raise e, t)
  end.

(** A session: [pipeline] applied to the frames in order, the tracker
    threaded through; a caller that catches a frame's exception goes on
    with the tracker as that frame left it. *)
Fixpoint run_session (t : Tracker) (frames : list Image)
    : list (result FrameOutput) * Tracker :=
  match frames with
  | [] => ([], t)
  | f :: frames' =>
      let '(r, t') := pipeline t f in
      let '(rs, t'') := run_session t' frames' in
      (r :: rs, t'')
  end.

(** The strategy selected on each frame of a session. *)
Fixpoint session_strategies (t : Tracker) (frames : list Image) : list Strategy :=
  match frames with
  | [] => []
  | f :: frames' => strategy t :: session_strategies (snd (pipeline t f)) frames'
  end.

Definition both_found (t : Tracker) : bool :=
  found (left_line t) && found (right_line t).

(** ** Sample frames *)

(** A 9x4 binary frame with columns 1 and 2 lit on every row. *)
Definition two_columns : Image := repeat [0; 1; 1; 0] 9.

(** A 9x4 frame whose only lit pixel is at row 8, column 1. *)
Definition one_pixel : Image := repeat [0; 0; 0; 0] 8 ++ [[0; 1; 0; 0]].

(** ** Vocabulary of the statements *)

Definition pixel_at {A : Type} (img : list (list A)) (i j : nat) : option A :=
  match nth_error img i with
  | Some row => nth_error row j
  | None => None
  end.

(** The sum of column [j] over the rows of the bottom half. *)
Definition column_sum (binary_warped : Image) (j : nat) : Z :=
  Np.zsum (map (fun row => nth j row 0)
               (skipn (Z.to_nat (height binary_warped / 2)) binary_warped)).

(** [i] is the lowest index at which [l] takes its maximum. *)
Definition first_max (l : list Z) (i : Z) : Prop :=
  0 <= i < Z.of_nat (length l)
  /\ (forall k, (k < length l)%nat -> nth k l 0 <= nth (Z.to_nat i) l 0)
  /\ (forall k, Z.of_nat k < i -> nth k l 0 < nth (Z.to_nat i) l 0).

(** The recentring rule: strictly more than [minpix] pixels move the
    centre to the integer part of their mean abscissa; otherwise the
    centre is kept. *)
Definition recentred (c c' : Z) (good : list (Z * Z)) : Prop :=
  let n := Z.of_nat (length good) in
  (50 < n -> n * c' <= Np.zsum (map snd good) < n * (c' + 1))
  /\ (n <= 50 -> c' = c).

(** What one window does to one lane: [good] is the set of nonzero pixels
    in the box of window [k] around the centre [c], it is appended to the
    lane's pixels, and the centre becomes [c']. *)
Definition window_collects (bw : Image) (k c c' : Z)
    (lane lane' : list (Z * Z)) : Prop :=
  let h := height bw in
  let wh := window_height bw in
  let good := good_inds h wh k c (Np.nonzero bw) in
  (forall p, In p good <->
             In p (Np.nonzero bw)
             /\ win_y_low h wh k <= fst p < win_y_high h wh k
             /\ c - 100 <= snd p < c + 100)
  /\ lane' = lane ++ good
  /\ recentred c c' good.

(** The behaviour of [find_lane_pixels] on the frame [bw]. *)
Definition sliding_window_spec (bw : Image) : Prop :=
  let h := height bw in
  let wh := window_height bw in
  exists lb rb : Z,
    (* histogram: column sums of the bottom half *)
    Z.of_nat (length (histogram bw)) = width bw
    /\ (forall j, Z.of_nat j < width bw ->
                  nth j (histogram bw) 0 = column_sum bw j)
    (* bases: first maximum of each half *)
    /\ midpoint bw = width bw / 2
    /\ leftx_base bw = Ok lb
    /\ first_max (firstn (Z.to_nat (midpoint bw)) (histogram bw)) lb
    /\ rightx_base bw = Ok rb
    /\ first_max (skipn (Z.to_nat (midpoint bw)) (histogram bw))
                 (rb - midpoint bw)
    (* nine windows of height h // 9, stacked upward from the bottom row *)
    /\ wh = h / 9
    /\ win_y_high h wh 0 = h
    /\ (forall k, 0 <= k < 9 ->
          win_y_high h wh k - win_y_low h wh k = wh
          /\ win_y_low h wh k = win_y_high h wh (k + 1))
    /\ (h mod 9 = 0 -> win_y_low h wh 8 = 0)
    (* each window collects and recentres, for both lanes *)
    /\ (forall k, 0 <= k < 9 ->
          let s := window_state bw lb rb k in
          let s' := window_state bw lb rb (k + 1) in
          window_collects bw k (leftx_current s) (leftx_current s')
                          (left_lane_inds s) (left_lane_inds s')
          /\ window_collects bw k (rightx_current s) (rightx_current s')
                             (right_lane_inds s) (right_lane_inds s'))
    (* the result: the pixels accumulated over the nine windows *)
    /\ left_lane_inds (window_state bw lb rb 0) = []
    /\ right_lane_inds (window_state bw lb rb 0) = []
    /\ leftx_current (window_state bw lb rb 0) = lb
    /\ rightx_current (window_state bw lb rb 0) = rb
    /\ find_lane_pixels bw =
       Ok {| leftx := map snd (left_lane_inds (window_state bw lb rb 9));
             lefty := map fst (left_lane_inds (window_state bw lb rb 9));
             rightx := map snd (right_lane_inds (window_state bw lb rb 9));
             righty := map fst (right_lane_inds (window_state bw lb rb 9)) |}.

(** The lateral offset that evaluates both fits on row [y]: the midpoint
    pixel minus the mean of the two intercepts, in metres, rounded to two
    decimals. *)
Definition offset_at_row (y w : Z) (left_fit right_fit : Fit) : Q :=
  round2 ((inject_Z (w / 2)
           - (poly_eval left_fit (inject_Z y)
              + poly_eval right_fit (inject_Z y)) / 2)
          * ((37 # 10) / 700)).

(** The rows [0 .. n-1] scaled by [s]. *)
Definition rows (s : Q) (n : nat) : list Q :=
  map (fun y => y * s)%Q (map inject_Z (map Z.of_nat (seq 0 n))).

(** The unit conversion of pixel-space coefficients to metres:
    [(a * xm / ym^2, b * xm / ym, c * xm)]. *)
Definition unit_conversion (f : Fit) : Fit :=
  {| fit0 := Qred (fit0 f * xm_per_pix / (ym_per_pix * ym_per_pix));
     fit1 := Qred (fit1 f * xm_per_pix / ym_per_pix);
     fit2 := Qred (fit2 f * xm_per_pix) |}.

(** The detected pixels of a lane, converted to metres. *)
Definition detected_metric_points (ys xs : list Z) : list Q * list Q :=
  (map (fun y => y * ym_per_pix)%Q (map inject_Z ys),
   map (fun x => x * xm_per_pix)%Q (map inject_Z xs)).

(** The lane pixels found by the sliding-window search (none when it
    raises). *)
Definition detected (bw : Image) : LanePixels :=
  match find_lane_pixels bw with
  | Ok px => px
  | Raise _ => mkLanePixels [] [] [] []
  end.

(** The pixels gathered by the windows below window [k]: distinct nonzero
    pixels on the rows those windows span. *)
Definition lane_ok (bw : Image) (k : Z) (lane : list (Z * Z)) : Prop :=
  NoDup lane
  /\ forall p, In p lane ->
       In p (Np.nonzero bw)
       /\ height bw - k * window_height bw <= fst p < height bw.

(** The two lanes' flags agree, and a lane is found exactly when it has a
    previous fit. *)
Definition tracker_wf (t : Tracker) : Prop :=
  (found (left_line t) = false /\ found (right_line t) = false
   /\ previous_fit (left_line t) = None
   /\ previous_fit (right_line t) = None)
  \/ (found (left_line t) = true /\ found (right_line t) = true
      /\ exists lf rf,
           previous_fit (left_line t) = Some lf
           /\ previous_fit (right_line t) = Some rf).

(** The output of the last frame of a session that completed. *)
Fixpoint last_completed (rs : list (result FrameOutput)) : option FrameOutput :=
  match rs with
  | [] => None
  | r :: rs' =>
      match last_completed rs' with
      | Some out => Some out
      | None => match r with Ok out => Some out | Raise _ => None end
      end
  end.

(** The tracker that a completed frame leaves behind. *)
Definition tracker_of (out : FrameOutput) : Tracker :=
  {| left_line := mkLine true (Some (out_left_fit out));
     right_line := mkLine true (Some (out_right_fit out)) |}.

(** The corner [(x, y)] lies in the frame [0 <= x <= W], [0 <= y <= H]. *)
Definition in_frame (W H : Z) (p : Q * Q) : Prop :=
  (0 <= fst p /\ fst p <= inject_Z W /\ 0 <= snd p /\ snd p <= inject_Z H)%Q.

(** The range [a] lies inside the range [b]. *)
Definition range_within (a b : Z * Z) : Prop :=
  fst b <= fst a /\ snd a <= snd b.

Definition qrange_within (a b : Q * Q) : Prop :=
  (fst b <= fst a /\ snd a <= snd b)%Q.

(** Every range of [t] lies inside the matching range of [t']. *)
Definition thresholds_within (t t' : Thresholds) : Prop :=
  range_within (abs_thresh t) (abs_thresh t')
  /\ range_within (magnitude_thresh t) (magnitude_thresh t')
  /\ qrange_within (angle_thresh t) (angle_thresh t')
  /\ range_within (h_thresh t) (h_thresh t')
  /\ range_within (s_thresh t) (s_thresh t').

(** ** Sample frames for the failure cases *)

(** A binary frame of [h] rows and [w] columns whose lit pixels are the
    columns [cols], on every row. *)
Definition lit_row (w : Z) (cols : list Z) : list Z :=
  map (fun x => if existsb (Z.eqb x) cols then 1 else 0) (range w).

Definition lit_columns (h w : Z) (cols : list Z) : Image :=
  repeat (lit_row w cols) (Z.to_nat h).

(** A first frame (9x252) with a lane line at each edge, columns 0 and 251. *)
Definition frame_edges : Image := lit_columns 9 252 [0; 251].

(** A later frame with a single line at column 125, more than 100 px away
    from both lines of [frame_edges]. *)
Definition frame_middle : Image := lit_columns 9 252 [125].

(** A 9x252 frame with no lit pixel. *)
Definition frame_dark : Image := lit_columns 9 252 [].

(** The tracker after [frame_edges] has completed as the first frame. *)
Definition tracker_edges : Tracker :=
  snd (pipeline initial_tracker frame_edges).

(** A 10x126 frame: row 0 has column 0 lit, row 8 has column 125 lit, the
    bottom row 9 has the 52 columns 0..51 lit; the other rows are dark. *)
Definition frame_steps : Image :=
  [lit_row 126 [0]] ++ repeat (lit_row 126 []) 7
  ++ [lit_row 126 [125]] ++ [lit_row 126 (range 52)].

(** A 720x1280 frame's pair of straight, slanted lane fits:
    [x = y/2] and [x = y/2 + 600]. *)
Definition slanted_left : Fit := mkFit 0 (1 # 2) 0.
Definition slanted_right : Fit := mkFit 0 (1 # 2) 600.

(** The absolute Sobel values of a uniform 2x2 frame, flattened. *)
Definition uniform_sobel : list R := [0; 0; 0; 0]%R.

(** A 3x4 frame with columns 1 and 2 lit: too short for any window. *)
Definition short_frame : Image := repeat [0; 1; 1; 0] 3.

(** A 2x2 frame with no lit pixel. *)
Definition dark_2x2 : Image := [[0; 0]; [0; 0]].

(** A gradient channel with three pixels; the last one is the maximum. *)
Definition ramp_channel : list R := [0; 1; 2]%R.

(** Thresholds wider than the defaults in every range. *)
Definition wide_thresholds : Thresholds :=
  {| abs_thresh := (10, 120);
     magnitude_thresh := (20, 120);
     angle_thresh := (5 # 10, 15 # 10);
     h_thresh := (5, 40);
     s_thresh := (100, 255) |}.

(** A pixel that passes the colour criteria only. *)
Definition yellow_pixel : Features :=
  {| scaled_sobel_x := 0; scaled_sobel_y := 0; magnitude := 0;
     direction_gradient := 0; hls_H := 20; hls_S := 200 |}.

(** * Properties *)

(** ** Tracker state machine *)

Section TrackerFacts.

Lemma pipeline_cases (t : Tracker) (img : Image) :
  (exists out,
      pipeline t img =
      (Ok out, {| left_line := mkLine true (Some (out_left_fit out));
                  right_line := mkLine true (Some (out_right_fit out)) |}))
  \/ (exists e, pipeline t img = (Raise e, t)).
Proof.
  unfold pipeline.
  match goal with |- context [match ?r with Ok _ => _ | Raise _ => _ end] =>
    destruct r as [out | e] end.
  - left. exists out. reflexivity.
  - right. exists e. reflexivity.
Qed.

Lemma pipeline_ok_inv (t : Tracker) (img : Image) (out : FrameOutput)
      (t' : Tracker) :
  pipeline t img = (Ok out, t') ->
  fit_lanes t img = Ok (out_left_fit out, out_right_fit out)
  /\ curvature_in_meters img (out_left_fit out) (out_right_fit out)
     = Ok (out_left_curverad out, out_right_curverad out,
           out_dist_from_center out)
  /\ t' = {| left_line := mkLine true (Some (out_left_fit out));
             right_line := mkLine true (Some (out_right_fit out)) |}.
Proof.
  unfold pipeline.
  destruct (fit_lanes t img) as [[lf rf] | e]; cbn [bind].
  - destruct (curvature_in_meters img lf rf) as [[[l r] d] | e] eqn:E;
      cbn [bind].
    + intros H. injection H as <- <-.
      cbn [out_left_fit out_right_fit out_left_curverad out_right_curverad
           out_dist_from_center].
      split; [reflexivity | split; [exact E | reflexivity]].
    + discriminate.
  - discriminate.
Qed.

Lemma pipeline_keeps_found (t : Tracker) (img : Image) :
  both_found t = true -> both_found (snd (pipeline t img)) = true.
Proof.
  intros Hf.
  destruct (pipeline_cases t img) as [[out E] | [e E]]; rewrite E; simpl.
  - reflexivity.
  - exact Hf.
Qed.

Lemma strategy_found (t : Tracker) :
  both_found t = true -> strategy t = PriorGuided.
Proof.
  unfold both_found, strategy.
  destruct (found (left_line t)), (found (right_line t)); simpl;
    intros H; try discriminate; reflexivity.
Qed.

Lemma strategy_not_found (t : Tracker) :
  both_found t = false -> strategy t = SlidingWindow.
Proof.
  unfold both_found, strategy.
  destruct (found (left_line t)), (found (right_line t)); simpl;
    intros H; try discriminate; reflexivity.
Qed.

Lemma run_session_cons (t : Tracker) (f : Image) (frames : list Image) :
  run_session t (f :: frames) =
  (fst (pipeline t f) :: fst (run_session (snd (pipeline t f)) frames),
   snd (run_session (snd (pipeline t f)) frames)).
Proof.
  simpl. destruct (pipeline t f) as [r t']. simpl.
  destruct (run_session t' frames) as [rs t'']. reflexivity.
Qed.

Lemma found_session_prior (frames : list Image) :
  forall t k s,
    both_found t = true ->
    nth_error (session_strategies t frames) k = Some s ->
    s = PriorGuided.
Proof.
  induction frames as [| f frames IH]; intros t k s Hf Hk.
  - destruct k; discriminate.
  - destruct k as [| k]; simpl in Hk.
    + injection Hk as <-. now apply strategy_found.
    + eapply IH; [| exact Hk]. now apply pipeline_keeps_found.
Qed.

Lemma completed_then_prior (frames : list Image) :
  forall t j k out s,
    (j < k)%nat ->
    nth_error (fst (run_session t frames)) j = Some (Ok out) ->
    nth_error (session_strategies t frames) k = Some s ->
    s = PriorGuided.
Proof.
  induction frames as [| f frames IH]; intros t j k out s Hjk Hj Hk.
  - destruct j; discriminate.
  - rewrite run_session_cons in Hj. simpl fst in Hj.
    destruct k as [| k]; [lia |]. simpl in Hk.
    destruct j as [| j]; simpl in Hj.
    + eapply found_session_prior; [| exact Hk].
      destruct (pipeline_cases t f) as [[o E] | [e E]]; rewrite E in *; simpl in *.
      * reflexivity.
      * discriminate.
    + eapply IH; [| exact Hj | exact Hk]. lia.
Qed.

Lemma session_lengths (frames : list Image) :
  forall t,
    length (fst (run_session t frames)) = length (session_strategies t frames).
Proof.
  induction frames as [| f fs IH]; intros t.
  - reflexivity.
  - rewrite run_session_cons. simpl. f_equal. apply IH.
Qed.

End TrackerFacts.



(** ** Failure of the prior-guided fit *)

Lemma fit_lanes_prior (t : Tracker) (img : Image) (lf rf : Fit) :
  strategy t = PriorGuided ->
  previous_fit (left_line t) = Some lf ->
  previous_fit (right_line t) = Some rf ->
  fit_lanes t img = search_around_poly img lf rf.
Proof.
  intros Hs Hl Hr. unfold fit_lanes, get_fit. rewrite Hs, Hl, Hr. reflexivity.
Qed.

(** C1, as the code has it.  On a frame where prior-guided search is in
    use and [search_around_poly] raises, [pipeline] does not search again:
    the exception leaves [pipeline] in that same frame, no output is
    produced for the frame, and both lanes' state is exactly what it was
    before the frame. *)
Theorem C1_prior_failure_propagates (t : Tracker) (img : Image)
    (lf rf : Fit) (e : exn) :
  strategy t = PriorGuided ->
  previous_fit (left_line t) = Some lf ->
  previous_fit (right_line t) = Some rf ->
  search_around_poly img lf rf = Raise e ->
  pipeline t img = (Raise e, t).
Proof.
  intros Hs Hl Hr He. unfold pipeline.
  rewrite (fit_lanes_prior t img lf rf Hs Hl Hr), He. reflexivity.
Qed.

Lemma C1_prior_failure_witness :
  strategy tracker_edges = PriorGuided
  /\ previous_fit (left_line tracker_edges) = Some (mkFit 0 0 0)
  /\ previous_fit (right_line tracker_edges) = Some (mkFit 0 0 251)
  /\ search_around_poly frame_middle (mkFit 0 0 0) (mkFit 0 0 251) = Raise TypeError
  /\ pipeline tracker_edges frame_middle = (Raise TypeError, tracker_edges).
Proof.
  match goal with |- ?A /\ ?B /\ ?C /\ ?D /\ _ =>
    assert (H1 : A) by (vm_compute; reflexivity);
    assert (H2 : B) by (vm_compute; reflexivity);
    assert (H3 : C) by (vm_compute; reflexivity);
    assert (H4 : D) by (vm_compute; reflexivity)
  end.
  split; [exact H1 |]. split; [exact H2 |].
  split; [exact H3 |]. split; [exact H4 |].
  exact (C1_prior_failure_propagates _ _ _ _ _ H1 H2 H3 H4).
Defined.

(** C1 as stated fails.  After [frame_edges] both lanes are found.  On
    [frame_middle] the prior-guided fit raises although sliding-window
    search on that very frame finds both lanes: [pipeline] raises instead
    of falling back.  On [frame_dark] both searches fail, and the lanes'
    state stays found, with the fits of [frame_edges]. *)
Lemma C1_fallback_counterexample :
  strategy tracker_edges = PriorGuided
  /\ is_ok (fit_polynomial frame_middle) = true
  /\ pipeline tracker_edges frame_middle = (Raise TypeError, tracker_edges)
  /\ fit_polynomial frame_dark = Raise TypeError
  /\ pipeline tracker_edges frame_dark = (Raise TypeError, tracker_edges)
  /\ both_found (snd (pipeline tracker_edges frame_dark)) = true.
Proof.
  split; [vm_compute; reflexivity |].
  split; [vm_compute; reflexivity |].
  split; [vm_compute; reflexivity |].
  split; [vm_compute; reflexivity |].
  split; vm_compute; reflexivity.
Qed.

(** ** Combined threshold *)

Lemma pixel_at_map {A B : Type} (f : A -> B) (img : list (list A)) (i j : nat) :
  pixel_at (map (map f) img) i j = option_map f (pixel_at img i j).
Proof.
  unfold pixel_at. rewrite nth_error_map.
  destruct (nth_error img i) as [row |]; simpl.
  - apply nth_error_map.
  - reflexivity.
Qed.

Lemma b2z_one (b : bool) : b2z b = 1 <-> b = true.
Proof. destruct b; simpl; split; intros H; try reflexivity; discriminate. Qed.

Lemma b2z_eqb_one (b : bool) : (b2z b =? 1) = b.
Proof. destruct b; reflexivity. Qed.

Lemma b2z_binary (b : bool) : b2z b = 1 \/ b2z b = 0.
Proof. destruct b; [left | right]; reflexivity. Qed.

(** The six masks, as ranges. *)
Lemma abs_sobel_thresh_range (lo hi v : Z) :
  abs_sobel_thresh (lo, hi) v = 1 <-> lo <= v <= hi.
Proof. unfold abs_sobel_thresh. rewrite b2z_one, andb_true_iff. simpl. lia. Qed.

Lemma mag_thresh_range (lo hi v : Z) :
  mag_thresh (lo, hi) v = 1 <-> lo <= v <= hi.
Proof. unfold mag_thresh. rewrite b2z_one, andb_true_iff. simpl. lia. Qed.

Lemma dir_thresh_range (lo hi v : Q) :
  dir_thresh (lo, hi) v = 1 <-> (lo <= v /\ v <= hi)%Q.
Proof.
  unfold dir_thresh. rewrite b2z_one, andb_true_iff, !Qle_bool_iff.
  simpl. tauto.
Qed.

Lemma hue_thresh_range (lo hi v : Z) :
  hue_thresh (lo, hi) v = 1 <-> lo < v <= hi.
Proof. unfold hue_thresh. rewrite b2z_one, andb_true_iff. simpl. lia. Qed.

Lemma saturation_thresh_range (lo hi v : Z) :
  saturation_thresh (lo, hi) v = 1 <-> lo < v <= hi.
Proof. unfold saturation_thresh. rewrite b2z_one, andb_true_iff. simpl. lia. Qed.

Lemma combined_pixel_formula (t : Thresholds) (p : Features) :
  combined_pixel t p = 1 <->
  (abs_sobel_thresh (abs_thresh t) (scaled_sobel_x p) = 1
   /\ abs_sobel_thresh (abs_thresh t) (scaled_sobel_y p) = 1
   /\ mag_thresh (magnitude_thresh t) (magnitude p) = 1
   /\ dir_thresh (angle_thresh t) (direction_gradient p) = 1)
  \/ (hue_thresh (h_thresh t) (hls_H p) = 1
      /\ saturation_thresh (s_thresh t) (hls_S p) = 1).
Proof.
  unfold combined_pixel. rewrite b2z_one, orb_true_iff, !andb_true_iff.
  rewrite !Z.eqb_eq. tauto.
Qed.

(** C3.  Every pixel of the combined mask is 0 or 1, and it is 1 exactly
    when (gradX and gradY and gradMag and gradDir) or (hue and sat), where
    with the default parameters gradX and gradY are the inclusive range
    [20,100] of the rescaled Sobel values, gradMag the inclusive range
    [30,100], gradDir the inclusive range [0.7,1.4], hue the range (10,35]
    and sat the range (120,255]. *)
Theorem C3_combined_threshold :
  forall (img : list (list Features)) (i j : nat),
    pixel_at (combined_thresh default_thresholds img) i j
    = option_map (combined_pixel default_thresholds) (pixel_at img i j)
    /\ forall p : Features,
         (combined_pixel default_thresholds p = 1
          \/ combined_pixel default_thresholds p = 0)
         /\ (combined_pixel default_thresholds p = 1 <->
             (20 <= scaled_sobel_x p <= 100
              /\ 20 <= scaled_sobel_y p <= 100
              /\ 30 <= magnitude p <= 100
              /\ (7 # 10 <= direction_gradient p
                  /\ direction_gradient p <= 14 # 10)%Q)
             \/ (10 < hls_H p <= 35 /\ 120 < hls_S p <= 255)).
Proof.
  intros img i j. split.
  - apply pixel_at_map.
  - intros p. split.
    + apply b2z_binary.
    + rewrite combined_pixel_formula. unfold default_thresholds.
      cbn [abs_thresh magnitude_thresh angle_thresh h_thresh s_thresh].
      rewrite 2!abs_sobel_thresh_range, mag_thresh_range, dir_thresh_range,
        hue_thresh_range, saturation_thresh_range.
      tauto.
Qed.

(** ** Sliding-window search *)

Section Histogram.

Lemma add_rows_length (acc row : list Z) :
  length (Np.add_rows acc row) = length acc.
Proof.
  revert row. induction acc as [| a acc IH]; intros [| r row]; simpl;
    try reflexivity.
  now rewrite IH.
Qed.

Lemma add_rows_nth (acc row : list Z) (j : nat) :
  (j < length acc)%nat ->
  nth j (Np.add_rows acc row) 0 = nth j acc 0 + nth j row 0.
Proof.
  revert row j. induction acc as [| a acc IH]; intros row j Hj; simpl in Hj.
  - lia.
  - destruct row as [| r row]; simpl.
    + destruct j; simpl; lia.
    + destruct j as [| j]; simpl; [reflexivity |]. apply IH. lia.
Qed.

Lemma fold_add_rows_length (rows : Image) (acc : list Z) :
  length (fold_left Np.add_rows rows acc) = length acc.
Proof.
  revert acc. induction rows as [| r rows IH]; intros acc; simpl.
  - reflexivity.
  - rewrite IH. apply add_rows_length.
Qed.

Lemma fold_add_rows_nth (rows : Image) (acc : list Z) (j : nat) :
  (j < length acc)%nat ->
  nth j (fold_left Np.add_rows rows acc) 0
  = nth j acc 0 + Np.zsum (map (fun row => nth j row 0) rows).
Proof.
  revert acc. induction rows as [| r rows IH]; intros acc Hj; simpl.
  - lia.
  - rewrite IH by (rewrite add_rows_length; exact Hj).
    rewrite add_rows_nth by exact Hj. lia.
Qed.

Lemma nth_repeat_zero (n j : nat) : nth j (repeat 0 n) 0 = 0.
Proof.
  revert j. induction n as [| n IH]; intros [| j]; simpl; try reflexivity.
  apply IH.
Qed.

Lemma histogram_length (bw : Image) :
  Z.of_nat (length (histogram bw)) = width bw.
Proof.
  unfold histogram, Np.sum_axis0. rewrite fold_add_rows_length, repeat_length.
  unfold width, shape. simpl. lia.
Qed.

Lemma histogram_nth (bw : Image) (j : nat) :
  (Z.of_nat j < width bw) ->
  nth j (histogram bw) 0 = column_sum bw j.
Proof.
  intros Hj. unfold histogram, Np.sum_axis0, column_sum, Np.drop.
  rewrite fold_add_rows_nth.
  - rewrite nth_repeat_zero. lia.
  - rewrite repeat_length. lia.
Qed.

End Histogram.

Section Argmax.

Lemma first_max_snoc_new (pre : list Z) (bi v : Z) :
  first_max pre bi -> nth (Z.to_nat bi) pre 0 < v ->
  first_max (pre ++ [v]) (Z.of_nat (length pre)).
Proof.
  intros (Hr & Hmax & Hfirst) Hv.
  assert (Hlast : nth (Z.to_nat (Z.of_nat (length pre))) (pre ++ [v]) 0 = v).
  { rewrite Nat2Z.id, app_nth2 by lia. now rewrite Nat.sub_diag. }
  unfold first_max. rewrite Hlast, length_app. simpl. repeat split; try lia.
  - intros k Hk. destruct (Nat.eq_dec k (length pre)) as [-> | Hne].
    + rewrite app_nth2 by lia. rewrite Nat.sub_diag. simpl. lia.
    + rewrite app_nth1 by lia. specialize (Hmax k). lia.
  - intros k Hk. rewrite app_nth1 by lia. specialize (Hmax k). lia.
Qed.

Lemma first_max_snoc_keep (pre : list Z) (bi v : Z) :
  first_max pre bi -> v <= nth (Z.to_nat bi) pre 0 ->
  first_max (pre ++ [v]) bi.
Proof.
  intros (Hr & Hmax & Hfirst) Hv.
  assert (Hbi : nth (Z.to_nat bi) (pre ++ [v]) 0 = nth (Z.to_nat bi) pre 0)
    by (apply app_nth1; lia).
  unfold first_max. rewrite Hbi, length_app. simpl. repeat split; try lia.
  - intros k Hk. destruct (Nat.eq_dec k (length pre)) as [-> | Hne].
    + rewrite app_nth2 by lia. rewrite Nat.sub_diag. simpl. lia.
    + rewrite app_nth1 by lia. apply Hmax. lia.
  - intros k Hk. rewrite app_nth1 by lia. now apply Hfirst.
Qed.

Lemma argmax_from_first_max (l : list Z) :
  forall (pre : list Z) (bi best : Z),
    first_max pre bi ->
    nth (Z.to_nat bi) pre 0 = best ->
    first_max (pre ++ l) (Np.argmax_from l (Z.of_nat (length pre)) bi best).
Proof.
  induction l as [| v l IH]; intros pre bi best Hfm Hbest; simpl.
  - now rewrite app_nil_r.
  - replace (pre ++ v :: l) with ((pre ++ [v]) ++ l)
      by (rewrite <- app_assoc; reflexivity).
    replace (Z.of_nat (length pre) + 1) with (Z.of_nat (length (pre ++ [v])))
      by (rewrite length_app; simpl; lia).
    destruct (best <? v) eqn:Hlt.
    + apply Z.ltb_lt in Hlt. apply IH.
      * apply (first_max_snoc_new pre bi v Hfm). lia.
      * rewrite Nat2Z.id, app_nth2 by lia. now rewrite Nat.sub_diag.
    + apply Z.ltb_ge in Hlt. apply IH.
      * apply (first_max_snoc_keep pre bi v Hfm). lia.
      * destruct Hfm as (Hr & _). rewrite app_nth1 by lia. exact Hbest.
Qed.

(** [np.argmax] returns the first index of the maximum of a non-empty
    array. *)
Lemma argmax_first_max (l : list Z) :
  l <> [] -> exists i, Np.argmax l = Ok i /\ first_max l i.
Proof.
  destruct l as [| v l]; [congruence |]. intros _.
  exists (Np.argmax_from l 1 0 v). split; [reflexivity |].
  apply (argmax_from_first_max l [v] 0 v).
  - unfold first_max. simpl. repeat split; try lia.
    intros [| k] Hk; simpl in *; lia.
  - reflexivity.
Qed.

End Argmax.

Section Nonzero.

Lemma nonzero_row_In (row : list Z) :
  forall (y x0 : Z) (p : Z * Z),
    In p (Np.nonzero_row y x0 row) <->
    exists (j : nat) (v : Z),
      p = (y, x0 + Z.of_nat j) /\ nth_error row j = Some v /\ v <> 0.
Proof.
  induction row as [| a row IH]; intros y x0 p; simpl.
  - split; [tauto |]. intros (j & v & _ & H & _). destruct j; discriminate.
  - destruct (a =? 0) eqn:Ha; [apply Z.eqb_eq in Ha | apply Z.eqb_neq in Ha];
      simpl; rewrite IH; split.
    + intros (j & v & -> & Hn & Hv). exists (S j), v. simpl.
      repeat split; try assumption. f_equal. lia.
    + intros ([| j] & v & -> & Hn & Hv); simpl in Hn.
      * congruence.
      * exists j, v. repeat split; try assumption. f_equal. lia.
    + intros [<- | (j & v & -> & Hn & Hv)].
      * exists 0%nat, a. simpl. repeat split; try assumption. f_equal. lia.
      * exists (S j), v. simpl. repeat split; try assumption. f_equal. lia.
    + intros ([| j] & v & -> & Hn & Hv); simpl in Hn.
      * left. f_equal. lia.
      * right. exists j, v. repeat split; try assumption. f_equal. lia.
Qed.

Lemma nonzero_from_In (img : Image) :
  forall (y0 : Z) (p : Z * Z),
    In p (Np.nonzero_from y0 img) <->
    exists (i j : nat) (v : Z),
      p = (y0 + Z.of_nat i, Z.of_nat j) /\ pixel_at img i j = Some v /\ v <> 0.
Proof.
  induction img as [| row img IH]; intros y0 p; simpl.
  - split; [tauto |]. intros (i & j & v & _ & H & _).
    unfold pixel_at in H. destruct i; discriminate.
  - rewrite in_app_iff, nonzero_row_In, IH. split.
    + intros [(j & v & -> & Hn & Hv) | (i & j & v & -> & Hn & Hv)].
      * exists 0%nat, j, v. repeat split; try assumption. f_equal. lia.
      * exists (S i), j, v. repeat split; try assumption. f_equal. lia.
    + intros ([| i] & j & v & -> & Hn & Hv).
      * left. exists j, v. repeat split; try assumption. f_equal. lia.
      * right. exists i, j, v. repeat split; try assumption. f_equal. lia.
Qed.

(** [nonzero] lists exactly the positions of the nonzero pixels. *)
Lemma nonzero_In (img : Image) (p : Z * Z) :
  In p (Np.nonzero img) <->
  exists (i j : nat) (v : Z),
    p = (Z.of_nat i, Z.of_nat j) /\ pixel_at img i j = Some v /\ v <> 0.
Proof. unfold Np.nonzero. apply nonzero_from_In. Qed.

(** The pixels a window selects: the nonzero pixels inside its box. *)
Lemma good_inds_In (h wh window c : Z) (nz : list (Z * Z)) (p : Z * Z) :
  In p (good_inds h wh window c nz) <->
  In p nz
  /\ win_y_low h wh window <= fst p < win_y_high h wh window
  /\ c - margin <= snd p < c + margin.
Proof.
  unfold good_inds, in_window. rewrite filter_In, !andb_true_iff.
  rewrite !Z.leb_le, !Z.ltb_lt. tauto.
Qed.

End Nonzero.

Section Recentring.

Lemma zsum_nonneg (xs : list Z) :
  Forall (fun x => 0 <= x) xs -> 0 <= Np.zsum xs.
Proof.
  induction 1 as [| x xs Hx _ IH]; simpl; lia.
Qed.

(** [np.int(np.mean(xs))] is the integer part of the mean of [xs]. *)
Lemma int_mean_bounds (xs : list Z) :
  xs <> [] -> Forall (fun x => 0 <= x) xs ->
  let n := Z.of_nat (length xs) in
  n * Np.int_mean xs <= Np.zsum xs < n * (Np.int_mean xs + 1).
Proof.
  intros Hne Hpos n. unfold Np.int_mean. fold n.
  assert (Hn : 0 < n) by (destruct xs; [congruence | subst n; simpl; lia]).
  pose proof (zsum_nonneg xs Hpos) as Hs.
  rewrite Z.quot_div_nonneg by lia.
  pose proof (Z.mul_div_le (Np.zsum xs) n Hn).
  pose proof (Z.mul_succ_div_gt (Np.zsum xs) n Hn).
  lia.
Qed.

Lemma nonzero_x_nonneg (img : Image) (p : Z * Z) :
  In p (Np.nonzero img) -> 0 <= snd p.
Proof.
  rewrite nonzero_In. intros (i & j & v & -> & _). simpl. lia.
Qed.

Lemma good_inds_x_nonneg (img : Image) (h wh window c : Z) :
  Forall (fun x => 0 <= x)
         (map snd (good_inds h wh window c (Np.nonzero img))).
Proof.
  apply Forall_forall. intros x Hx. apply in_map_iff in Hx.
  destruct Hx as (p & <- & Hp). apply good_inds_In in Hp.
  apply (nonzero_x_nonneg img). tauto.
Qed.

Lemma recenter_recentred (img : Image) (h wh window c x : Z) :
  let good := good_inds h wh window c (Np.nonzero img) in
  recentred x (recenter x good) good.
Proof.
  intros good. unfold recentred, recenter, minpix.
  destruct (50 <? Z.of_nat (length good)) eqn:Hn;
    [apply Z.ltb_lt in Hn | apply Z.ltb_ge in Hn]; split; intros H; try lia.
  pose proof (int_mean_bounds (map snd good)) as Hb.
  rewrite length_map in Hb. apply Hb.
  - destruct good; simpl in *; [lia | discriminate].
  - apply good_inds_x_nonneg.
Qed.

End Recentring.

Lemma range_succ (k : Z) : 0 <= k -> range (k + 1) = range k ++ [k].
Proof.
  intros Hk. unfold range.
  replace (Z.to_nat (k + 1)) with (S (Z.to_nat k)) by lia.
  rewrite seq_S, map_app. simpl. now rewrite Z2Nat.id by lia.
Qed.

Lemma window_state_succ (bw : Image) (lb rb k : Z) :
  0 <= k ->
  window_state bw lb rb (k + 1) =
  window_step (height bw) (window_height bw) (Np.nonzero bw)
              (window_state bw lb rb k) k.
Proof.
  intros Hk. unfold window_state. rewrite range_succ by exact Hk.
  now rewrite fold_left_app.
Qed.

Lemma window_step_collects (bw : Image) (s : WinState) (k : Z) :
  let s' := window_step (height bw) (window_height bw) (Np.nonzero bw) s k in
  window_collects bw k (leftx_current s) (leftx_current s')
                  (left_lane_inds s) (left_lane_inds s')
  /\ window_collects bw k (rightx_current s) (rightx_current s')
                     (right_lane_inds s) (right_lane_inds s').
Proof.
  unfold window_collects. simpl.
  split; (split; [| split]);
    try (intros p; apply good_inds_In); try reflexivity;
    apply recenter_recentred.
Qed.

(** C4, as the code has it.  For every binary warped frame at least two
    columns wide, [find_lane_pixels] takes the column sums of the bottom
    half as histogram, the first maximum of the left half as left base and
    the first maximum of the right half plus the half-width as right base,
    stacks 9 windows of height [H // 9] from the bottom row upward (they
    cover every row when 9 divides H), each spanning columns
    [centre - 100 .. centre + 100), collects all nonzero pixels inside
    each window, and moves the centre to the integer part of the mean
    abscissa of those pixels exactly when strictly more than 50 were
    collected, keeping it otherwise. *)
Theorem C4_sliding_window (bw : Image) :
  2 <= width bw -> sliding_window_spec bw.
Proof.
  intros Hw. unfold sliding_window_spec.
  pose proof (histogram_length bw) as Hlen.
  assert (Hmid : midpoint bw = width bw / 2)
    by (unfold midpoint; now rewrite Hlen).
  assert (Hm1 : 1 <= midpoint bw)
    by (rewrite Hmid; apply Z.div_le_lower_bound; lia).
  assert (Hm2 : midpoint bw < width bw)
    by (rewrite Hmid; apply Z.div_lt_upper_bound; lia).
  destruct (argmax_first_max
              (firstn (Z.to_nat (midpoint bw)) (histogram bw)))
    as (lb & Hlb & Hlmax).
  { intros E. apply (f_equal (@length Z)) in E.
    rewrite length_firstn in E. simpl in E. lia. }
  destruct (argmax_first_max
              (skipn (Z.to_nat (midpoint bw)) (histogram bw)))
    as (rb0 & Hrb & Hrmax).
  { intros E. apply (f_equal (@length Z)) in E.
    rewrite length_skipn in E. simpl in E. lia. }
  assert (Hrbase : rightx_base bw = Ok (rb0 + midpoint bw))
    by (unfold rightx_base, Np.drop; now rewrite Hrb).
  exists lb, (rb0 + midpoint bw).
  split; [exact Hlen |].
  split; [intros j Hj; now apply histogram_nth |].
  split; [exact Hmid |].
  split; [exact Hlb |].
  split; [exact Hlmax |].
  split; [exact Hrbase |].
  split; [now replace (rb0 + midpoint bw - midpoint bw) with rb0 by lia |].
  split; [reflexivity |].
  split; [unfold win_y_high; lia |].
  split; [intros k Hk; unfold win_y_high, win_y_low; lia |].
  split.
  { intros Hdiv. unfold win_y_low, window_height, nwindows.
    pose proof (Z.div_mod (height bw) 9). lia. }
  split.
  { intros k Hk. cbv zeta. rewrite window_state_succ by lia.
    apply window_step_collects. }
  split; [reflexivity |].
  split; [reflexivity |].
  split; [reflexivity |].
  split; [reflexivity |].
  unfold find_lane_pixels. rewrite Hrbase.
  unfold leftx_base, Np.take. rewrite Hlb. reflexivity.
Qed.

Lemma C4_sliding_window_witness :
  2 <= width two_columns /\ sliding_window_spec two_columns.
Proof.
  assert (H : 2 <= width two_columns) by (vm_compute; discriminate).
  split; [exact H |]. exact (C4_sliding_window two_columns H).
Defined.

(** C4 as stated fails on [frame_steps].  The bottom window of the left
    lane is centred at the base 0 and collects the 52 pixels of columns
    0..51, whose mean abscissa is 51/2; the next window is centred at 25,
    not at the mean, and so misses the pixel at column 125 of row 8 (its
    box ends at column 124).  The nine windows have height 10 // 9 = 1 and
    stop above row 1: the lit pixel of row 0 is in no window and in
    neither lane. *)
Lemma C4_sliding_window_counterexample :
  leftx_base frame_steps = Ok 0
  /\ rightx_base frame_steps = Ok 125
  /\ map snd (good_inds (height frame_steps) (window_height frame_steps) 0 0
                        (Np.nonzero frame_steps)) = range 52
  /\ (Np.zsum (range 52) # 52 == 51 # 2)%Q
  /\ leftx_current (window_state frame_steps 0 125 1) = 25
  /\ ~ (inject_Z 25 == 51 # 2)%Q
  /\ good_inds (height frame_steps) (window_height frame_steps) 1 25
               (Np.nonzero frame_steps) = []
  /\ Np.nonzero frame_steps <> []
  /\ hd (0, 0) (Np.nonzero frame_steps) = (0, 0)
  /\ win_y_low (height frame_steps) (window_height frame_steps) 8 = 1
  /\ option_map (fun px => existsb (Z.eqb 0) (lefty px ++ righty px))
                (match find_lane_pixels frame_steps with
                 | Ok px => Some px
                 | Raise _ => None
                 end) = Some false.
Proof.
  split; [vm_compute; reflexivity |].
  split; [vm_compute; reflexivity |].
  split; [vm_compute; reflexivity |].
  split; [vm_compute; reflexivity |].
  split; [vm_compute; reflexivity |].
  split; [vm_compute; discriminate |].
  split; [vm_compute; reflexivity |].
  split; [vm_compute; discriminate |].
  split; [vm_compute; reflexivity |].
  split; vm_compute; reflexivity.
Qed.

(** ** Fits of small pixel sets *)

Section FitFailure.

Lemma polyfitZ_empty (xs : list Z) : polyfitZ [] xs = Raise TypeError.
Proof. reflexivity. Qed.

Lemma fit_pair_empty (px : LanePixels) :
  lefty px = [] \/ righty px = [] ->
  exists e,
    (left_fit <- polyfitZ (lefty px) (leftx px) ;;
     right_fit <- polyfitZ (righty px) (rightx px) ;;
     Ok (left_fit, right_fit)) = Raise e.
Proof.
  intros [Hl | Hr].
  - rewrite Hl. exists TypeError. reflexivity.
  - rewrite Hr. destruct (polyfitZ (lefty px) (leftx px)) as [lf | e]; simpl.
    + exists TypeError. reflexivity.
    + exists e. reflexivity.
Qed.

Lemma fit_polynomial_empty (bw : Image) (px : LanePixels) :
  find_lane_pixels bw = Ok px ->
  lefty px = [] \/ righty px = [] ->
  exists e, fit_polynomial bw = Raise e.
Proof.
  intros Hpx He. unfold fit_polynomial. rewrite Hpx. simpl.
  apply fit_pair_empty, He.
Qed.

Lemma search_around_poly_empty (bw : Image) (lf rf : Fit) :
  lefty (search_pixels bw lf rf) = [] \/ righty (search_pixels bw lf rf) = [] ->
  exists e, search_around_poly bw lf rf = Raise e.
Proof.
  intros He. unfold search_around_poly. cbv zeta.
  destruct (fit_pair_empty _ He) as (e & E). exists e.
  destruct (polyfitZ (lefty (search_pixels bw lf rf))
                     (leftx (search_pixels bw lf rf))) as [l | e1];
    cbn [bind] in *.
  - destruct (polyfitZ (righty (search_pixels bw lf rf))
                       (rightx (search_pixels bw lf rf))) as [r | e2];
      cbn [bind] in *; [discriminate E | exact E].
  - exact E.
Qed.

Lemma fit_polynomial_ok (bw : Image) (lf rf : Fit) :
  fit_polynomial bw = Ok (lf, rf) ->
  exists px,
    find_lane_pixels bw = Ok px
    /\ polyfitZ (lefty px) (leftx px) = Ok lf
    /\ polyfitZ (righty px) (rightx px) = Ok rf.
Proof.
  unfold fit_polynomial.
  destruct (find_lane_pixels bw) as [px | e]; cbn [bind]; [| discriminate].
  destruct (polyfitZ (lefty px) (leftx px)) as [l | e] eqn:El;
    cbn [bind]; [| discriminate].
  destruct (polyfitZ (righty px) (rightx px)) as [r | e] eqn:Er;
    cbn [bind]; [| discriminate].
  intros H. inversion H; subst. exists px. repeat split; assumption.
Qed.

Lemma pipeline_fit_raise (t : Tracker) (bw : Image) (e : exn) :
  fit_lanes t bw = Raise e -> pipeline t bw = (Raise e, t).
Proof. intros H. unfold pipeline. rewrite H. reflexivity. Qed.

Lemma Qsq_nonneg (q : Q) : (0 <= q * (q * 1))%Q.
Proof. destruct q as [n d]. unfold Qle. cbn. nia. Qed.

Lemma Qsq_pos (q : Q) : ~ (q == 0)%Q -> (0 < q * (q * 1))%Q.
Proof.
  destruct q as [n d]. unfold Qlt, Qeq. cbn. intros H. nia.
Qed.

Lemma power_sum2_nonneg (l : list Q) : (0 <= Polyfit.power_sum 2 l)%Q.
Proof.
  unfold Polyfit.power_sum, Polyfit.qsum.
  induction l as [| q l IH]; cbn [map fold_right]; [apply Qle_refl |].
  rewrite Qred_correct. change (Polyfit.pow 2 q) with (q * (q * 1))%Q.
  revert IH. generalize (fold_right (fun q0 s : Q => Qred (q0 + s)) 0%Q
                           (map (Polyfit.pow 2) l)).
  intros s IH.
  pose proof (Qsq_nonneg q).
  Lqa.lra.
Qed.

Lemma power_sum2_pos (l : list Q) :
  (exists q, In q l /\ ~ (q == 0)%Q) -> (0 < Polyfit.power_sum 2 l)%Q.
Proof.
  intros (q & Hin & Hq). induction l as [| p l IH]; [destruct Hin |].
  pose proof (power_sum2_nonneg l) as Hl.
  unfold Polyfit.power_sum, Polyfit.qsum in *. cbn [map fold_right].
  rewrite Qred_correct. change (Polyfit.pow 2 p) with (p * (p * 1))%Q.
  revert IH Hl. generalize (fold_right (fun q0 s : Q => Qred (q0 + s)) 0%Q
                              (map (Polyfit.pow 2) l)).
  intros s IH Hl.
  destruct Hin as [-> | Hin].
  - pose proof (Qsq_pos q Hq). Lqa.lra.
  - specialize (IH Hin). pose proof (Qsq_nonneg p). Lqa.lra.
Qed.

Lemma polyfitZ_returns (ys xs : list Z) :
  (exists y, In y ys /\ y <> 0) -> exists f, polyfitZ ys xs = Ok f.
Proof.
  intros (y & Hin & Hy). unfold polyfitZ, Polyfit.polyfit.
  destruct (map inject_Z ys) as [| q l] eqn:E.
  - destruct ys; [destruct Hin | discriminate].
  - rewrite <- E.
    destruct (negb (Qeq_bool (Polyfit.normal_det (map inject_Z ys)) 0));
      [eexists; reflexivity |].
    assert (Hp : (0 < Polyfit.power_sum 2 (map inject_Z ys))%Q).
    { apply power_sum2_pos. exists (inject_Z y). split; [now apply in_map |].
      intros C. apply Hy. apply (proj1 (inject_Z_injective y 0)). exact C. }
    destruct (Qeq_bool (Polyfit.power_sum 2 (map inject_Z ys)) 0) eqn:E2.
    + apply Qeq_bool_iff in E2. rewrite E2 in Hp. discriminate.
    + eexists; reflexivity.
Qed.

Lemma fit_polynomial_off_row0 (bw : Image) (px : LanePixels) :
  find_lane_pixels bw = Ok px ->
  (exists y, In y (lefty px) /\ y <> 0) ->
  (exists y, In y (righty px) /\ y <> 0) ->
  exists lf rf, fit_polynomial bw = Ok (lf, rf).
Proof.
  intros Hpx Hl Hr. unfold fit_polynomial. rewrite Hpx. cbn [bind].
  destruct (polyfitZ_returns _ (leftx px) Hl) as (lf & El).
  destruct (polyfitZ_returns _ (rightx px) Hr) as (rf & Er).
  rewrite El, Er. cbn [bind]. exists lf, rf. reflexivity.
Qed.

Lemma search_around_poly_off_row0 (bw : Image) (lf0 rf0 : Fit) :
  (exists y, In y (lefty (search_pixels bw lf0 rf0)) /\ y <> 0) ->
  (exists y, In y (righty (search_pixels bw lf0 rf0)) /\ y <> 0) ->
  exists lf rf, search_around_poly bw lf0 rf0 = Ok (lf, rf).
Proof.
  intros Hl Hr. unfold search_around_poly, fit_poly. cbv zeta.
  destruct (polyfitZ_returns _ (leftx (search_pixels bw lf0 rf0)) Hl) as (lf & El).
  destruct (polyfitZ_returns _ (rightx (search_pixels bw lf0 rf0)) Hr) as (rf & Er).
  rewrite El, Er. cbn [bind]. exists lf, rf. reflexivity.
Qed.

End FitFailure.




(** ** Lateral offset *)

Section Rounding.

Lemma Qlt_bool_iff (p q : Q) : Qlt_bool p q = true <-> (p < q)%Q.
Proof.
  unfold Qlt_bool. rewrite negb_true_iff. split.
  - intros H. apply Qnot_le_lt. intros Hle.
    apply Qle_bool_iff in Hle. congruence.
  - intros H. destruct (Qle_bool q p) eqn:E; [| reflexivity].
    apply Qle_bool_iff in E. exfalso. exact (Qlt_not_le _ _ H E).
Qed.

Lemma rint_zero (q : Q) : (q == 0)%Q -> rint q = 0.
Proof.
  intros Hq. unfold rint.
  assert (Hf : Qfloor q = 0) by (rewrite (Qfloor_comp _ _ Hq); reflexivity).
  rewrite Hf.
  assert (E : Qlt_bool (q - inject_Z 0) (1 # 2) = true).
  { apply Qlt_bool_iff. setoid_replace (q - inject_Z 0)%Q with 0%Q
      by (rewrite Hq; ring). reflexivity. }
  now rewrite E.
Qed.

Lemma round2_zero (q : Q) : (q == 0)%Q -> round2 q = 0%Q.
Proof.
  intros Hq. unfold round2. rewrite rint_zero; [reflexivity |].
  rewrite Hq. ring.
Qed.

Lemma rint_error (q : Q) :
  (- (1 # 2) <= inject_Z (rint q) - q <= 1 # 2)%Q.
Proof.
  pose proof (Qfloor_le q) as Hlo. pose proof (Qlt_floor q) as Hhi.
  rewrite inject_Z_plus in Hhi. change (inject_Z 1) with 1%Q in Hhi.
  unfold rint.
  destruct (Qlt_bool (q - inject_Z (Qfloor q)) (1 # 2)) eqn:E1.
  - apply Qlt_bool_iff in E1.
    revert Hlo Hhi E1. generalize (inject_Z (Qfloor q)). intros f; Lqa.lra.
  - assert (H1 : ~ (q - inject_Z (Qfloor q) < 1 # 2)%Q)
      by (intros C; apply Qlt_bool_iff in C; congruence).
    assert (Hup : (- (1 # 2) <= inject_Z (Qfloor q + 1) - q <= 1 # 2)%Q).
    { rewrite inject_Z_plus. change (inject_Z 1) with 1%Q.
      revert Hlo Hhi H1. generalize (inject_Z (Qfloor q)). intros f; Lqa.lra. }
    destruct (Qlt_bool (1 # 2) (q - inject_Z (Qfloor q))) eqn:E2;
      [exact Hup |].
    destruct (Z.even (Qfloor q)); [| exact Hup].
    assert (H2 : ~ (1 # 2 < q - inject_Z (Qfloor q))%Q)
      by (intros C; apply Qlt_bool_iff in C; congruence).
    revert Hlo Hhi H1 H2. generalize (inject_Z (Qfloor q)). intros f; Lqa.lra.
Qed.

Lemma round2_error (q : Q) :
  (- (1 # 200) <= round2 q - q <= 1 # 200)%Q.
Proof.
  unfold round2. rewrite Qred_correct.
  pose proof (rint_error (q * 100)) as H.
  set (z := inject_Z (rint (q * 100))) in *.
  assert (E : (z / 100 - q == (z - q * 100) / 100)%Q) by field.
  rewrite E. unfold Qdiv.
  change (/ 100)%Q with (1 # 100)%Q. Lqa.lra.
Qed.

Lemma round2_hundredths (q : Q) :
  (round2 q == inject_Z (rint (q * 100)) / 100)%Q.
Proof. unfold round2. apply Qred_correct. Qed.

Lemma round2_sign (q : Q) :
  ((0 < round2 q)%Q -> (0 < q)%Q) /\ ((round2 q < 0)%Q -> (q < 0)%Q).
Proof.
  pose proof (round2_error q) as He.
  pose proof (round2_hundredths q) as Hn.
  set (n := rint (q * 100)) in *.
  assert (Hq : (round2 q == inject_Z n * (1 # 100))%Q).
  { rewrite Hn. unfold Qdiv. change (/ 100)%Q with (1 # 100)%Q. reflexivity. }
  split; intros H.
  - assert (Hn1 : (1 <= inject_Z n)%Q).
    { change 1%Q with (inject_Z 1). rewrite <- Zle_Qle.
      assert (0 < n); [| lia].
      rewrite Zlt_Qlt. change (inject_Z 0) with 0%Q.
      rewrite Hq in H. Lqa.lra. }
    rewrite Hq in He. Lqa.lra.
  - assert (Hn1 : (inject_Z n <= -1)%Q).
    { change (-1)%Q with (inject_Z (-1)). rewrite <- Zle_Qle.
      assert (n < 0); [| lia].
      rewrite Zlt_Qlt. change (inject_Z 0) with 0%Q.
      rewrite Hq in H. Lqa.lra. }
    rewrite Hq in He. Lqa.lra.
Qed.

End Rounding.

(** C5, as the code has it.  The lateral offset is the midpoint pixel
    [W // 2] minus the mean of the two fits' abscissas evaluated at
    [y = H] (one row below the last pixel row [H - 1]), converted to
    metres at 3.7 m per 700 px and rounded to 2 decimals: the reported
    value is a whole number of hundredths, at most 0.005 away from the
    unrounded one (which fixes it, except on an exact tie, where either
    neighbour qualifies); a positive offset means the lane centre is left
    of the midpoint, that is the vehicle is right of the lane centre, and
    a negative one the opposite; and for lanes symmetric about pixel 640
    in a frame of width 1280 the offset is 0.00. *)
Theorem C5_lateral_offset (h w : Z) (left_fit right_fit : Fit) :
  let centre :=
    ((poly_eval left_fit (inject_Z h)
      + poly_eval right_fit (inject_Z h)) / 2)%Q in
  let metres := ((inject_Z (w / 2) - centre) * ((37 # 10) / 700))%Q in
  let reported := dist_from_center h w left_fit right_fit in
  (exists n : Z, (reported == inject_Z n / 100)%Q)
  /\ (- (1 # 200) <= reported - metres <= 1 # 200)%Q
  /\ ((0 < reported)%Q -> (centre < inject_Z (w / 2))%Q)
  /\ ((reported < 0)%Q -> (inject_Z (w / 2) < centre)%Q)
  /\ (w = 1280 ->
      forall d : Q,
        (poly_eval left_fit (inject_Z h) == 640 - d)%Q ->
        (poly_eval right_fit (inject_Z h) == 640 + d)%Q ->
        reported = 0%Q).
Proof.
  cbv zeta. unfold dist_from_center.
  set (centre := ((poly_eval left_fit (inject_Z h)
                   + poly_eval right_fit (inject_Z h)) / 2)%Q).
  assert (Ex : ((inject_Z (w / 2) - centre) * xm_per_pix
                == (inject_Z (w / 2) - centre) * ((37 # 10) / 700))%Q)
    by reflexivity.
  pose proof (round2_sign ((inject_Z (w / 2) - centre) * xm_per_pix))
    as [Hp Hn].
  split; [eexists; apply round2_hundredths |].
  split; [rewrite <- Ex; apply round2_error |].
  split; [| split].
  - intros H. apply Hp in H. revert H. unfold xm_per_pix.
    generalize (inject_Z (w / 2)) centre. intros m c H. Lqa.nra.
  - intros H. apply Hn in H. revert H. unfold xm_per_pix.
    generalize (inject_Z (w / 2)) centre. intros m c H. Lqa.nra.
  - intros -> d Hl Hr. apply round2_zero. unfold centre.
    rewrite Hl, Hr. change (inject_Z (1280 / 2)) with 640%Q.
    unfold xm_per_pix. field.
Qed.

Lemma C5_lateral_offset_witness :
  1280 = 1280
  /\ (poly_eval (mkFit 0 0 350) (inject_Z 720) == 640 - 290)%Q
  /\ (poly_eval (mkFit 0 0 930) (inject_Z 720) == 640 + 290)%Q
  /\ dist_from_center 720 1280 (mkFit 0 0 350) (mkFit 0 0 930) = 0%Q
  /\ (0 < dist_from_center 720 1280 (mkFit 0 0 150) (mkFit 0 0 730))%Q
  /\ ((poly_eval (mkFit 0 0 150) (inject_Z 720)
       + poly_eval (mkFit 0 0 730) (inject_Z 720)) / 2
      < inject_Z (1280 / 2))%Q
  /\ (dist_from_center 720 1280 slanted_left slanted_right < 0)%Q
  /\ (inject_Z (1280 / 2)
      < (poly_eval slanted_left (inject_Z 720)
         + poly_eval slanted_right (inject_Z 720)) / 2)%Q.
Proof.
  assert (H1 : 1280 = 1280) by reflexivity.
  assert (H2 : (poly_eval (mkFit 0 0 350) (inject_Z 720) == 640 - 290)%Q)
    by (vm_compute; reflexivity).
  assert (H3 : (poly_eval (mkFit 0 0 930) (inject_Z 720) == 640 + 290)%Q)
    by (vm_compute; reflexivity).
  assert (H4 : (0 < dist_from_center 720 1280 (mkFit 0 0 150) (mkFit 0 0 730))%Q)
    by (vm_compute; reflexivity).
  assert (H5 : (dist_from_center 720 1280 slanted_left slanted_right < 0)%Q)
    by (vm_compute; reflexivity).
  split; [exact H1 |]. split; [exact H2 |]. split; [exact H3 |].
  split;
    [exact (proj2 (proj2 (proj2 (proj2
              (C5_lateral_offset 720 1280 (mkFit 0 0 350) (mkFit 0 0 930)))))
              H1 290%Q H2 H3) |].
  split; [exact H4 |].
  split;
    [exact (proj1 (proj2 (proj2
              (C5_lateral_offset 720 1280 (mkFit 0 0 150) (mkFit 0 0 730))))
              H4) |].
  split; [exact H5 |].
  exact (proj1 (proj2 (proj2 (proj2
           (C5_lateral_offset 720 1280 slanted_left slanted_right)))) H5).
Defined.

(** C5 as stated fails for the intercept row.  In a 720x1280 frame the
    bottom pixel row is row 719; for the lanes [x = y/2] and
    [x = y/2 + 600] the offset taken on that row is -0.10307 m, that is
    -0.10 m to 2 decimals, while [curvature_in_meters] evaluates the fits
    at [y = 720] and reports -0.11 m, more than 0.005 away from the
    bottom-row value (neither value is a tie). *)
Lemma C5_bottom_row_counterexample :
  height (lit_columns 720 1280 []) = 720
  /\ width (lit_columns 720 1280 []) = 1280
  /\ offset_at_row 719 1280 slanted_left slanted_right = (-1 # 10)%Q
  /\ dist_from_center 720 1280 slanted_left slanted_right = (-11 # 100)%Q
  /\ ~ (dist_from_center 720 1280 slanted_left slanted_right
        == offset_at_row 719 1280 slanted_left slanted_right)%Q
  /\ ~ (- (1 # 200)
        <= dist_from_center 720 1280 slanted_left slanted_right
           - (inject_Z (1280 / 2)
              - (poly_eval slanted_left (inject_Z 719)
                 + poly_eval slanted_right (inject_Z 719)) / 2)
             * ((37 # 10) / 700)
        <= 1 # 200)%Q.
Proof.
  split; [vm_compute; reflexivity |].
  split; [vm_compute; reflexivity |].
  split; [vm_compute; reflexivity |].
  split; [vm_compute; reflexivity |].
  split; [vm_compute; discriminate |].
  intros [H _]. revert H. vm_compute. intros H. apply H. reflexivity.
Qed.

(** ** Radius of curvature of a straight lane *)

Section Curvature.

Lemma Rpower_pos (x y : R) : (0 < Rpower x y)%R.
Proof. unfold Rpower. apply exp_pos. Qed.

Lemma fdiv_pos_zero (n : R) : (0 < n)%R -> fdiv n 0 = PosInf.
Proof.
  intros Hn. unfold fdiv.
  destruct (Req_dec_T 0 0) as [_ | Hne]; [| congruence].
  destruct (Rlt_dec 0 n) as [_ | Hnlt]; [reflexivity | contradiction].
Qed.

Lemma fdiv_pos_not_nan (n d : R) : (0 < n)%R -> fdiv n d <> NaN.
Proof.
  intros Hn. unfold fdiv.
  destruct (Req_dec_T d 0); [| discriminate].
  destruct (Rlt_dec 0 n); [discriminate | contradiction].
Qed.

Lemma curverad_straight (fit_cr : Fit) (y_eval : Q) :
  (fit0 fit_cr == 0)%Q -> curverad fit_cr y_eval = PosInf.
Proof.
  intros Ha. unfold curverad.
  assert (E : Q2R (fit0 fit_cr) = 0%R).
  { rewrite (Qeq_eqR _ _ Ha). unfold Q2R. simpl. lra. }
  rewrite E, Rmult_0_r, Rabs_R0.
  apply fdiv_pos_zero, Rpower_pos.
Qed.

Lemma curverad_not_nan (fit_cr : Fit) (y_eval : Q) :
  curverad fit_cr y_eval <> NaN.
Proof. unfold curverad. apply fdiv_pos_not_nan, Rpower_pos. Qed.

End Curvature.



(** ** The metric-space fit *)

Section Refit.
Local Open Scope Q_scope.

Lemma pow_comp (k : nat) (p q : Q) : p == q -> Polyfit.pow k p == Polyfit.pow k q.
Proof.
  intros H. induction k as [| k IH]; simpl; [reflexivity |].
  now rewrite IH, H.
Qed.

Lemma qsum_cons (q : Q) (l : list Q) :
  Polyfit.qsum (q :: l) == q + Polyfit.qsum l.
Proof. unfold Polyfit.qsum. cbn [fold_right]. apply Qred_correct. Qed.

Lemma moment_parabola (k : nat) (A B C : Q) (ys xs : list Q) :
  Forall2 (fun y x => x == A * (y * y) + B * y + C) ys xs ->
  Polyfit.moment k ys xs ==
  A * Polyfit.power_sum (2 + k) ys + B * Polyfit.power_sum (1 + k) ys
  + C * Polyfit.power_sum k ys.
Proof.
  unfold Polyfit.moment, Polyfit.power_sum, Polyfit.dot.
  induction 1 as [| y x ys xs Hx _ IH]; cbn [map combine].
  - cbn [Polyfit.qsum fold_right]. ring.
  - rewrite !qsum_cons, IH. cbn [fst snd Nat.add Polyfit.pow].
    rewrite Hx. ring.
Qed.

Lemma qsum_app (l1 l2 : list Q) :
  Polyfit.qsum (l1 ++ l2) == Polyfit.qsum l1 + Polyfit.qsum l2.
Proof.
  induction l1 as [| a l1 IH]; cbn [app].
  - cbn [Polyfit.qsum fold_right]. ring.
  - rewrite !qsum_cons, IH. ring.
Qed.

Lemma power_sum_snoc (k : nat) (ys : list Q) (y : Q) :
  Polyfit.power_sum k (ys ++ [y])
  == Polyfit.power_sum k ys + Polyfit.pow k y.
Proof.
  unfold Polyfit.power_sum. rewrite map_app, qsum_app. cbn [map].
  rewrite qsum_cons. cbn [Polyfit.qsum fold_right]. ring.
Qed.

Lemma rows_succ (s : Q) (n : nat) :
  rows s (S n) = rows s n ++ [inject_Z (Z.of_nat n) * s].
Proof. unfold rows. rewrite seq_S, !map_app. reflexivity. Qed.

Lemma inject_succ (n : nat) :
  inject_Z (Z.of_nat (S n)) == inject_Z (Z.of_nat n) + 1.
Proof. rewrite Nat2Z.inj_succ. unfold Z.succ. rewrite inject_Z_plus. reflexivity. Qed.

Lemma power_sums_rows (s : Q) (n : nat) :
  let N := inject_Z (Z.of_nat n) in
  Polyfit.power_sum 0 (rows s n) == N
  /\ Polyfit.power_sum 1 (rows s n) == s * (N * (N - 1) / 2)
  /\ Polyfit.power_sum 2 (rows s n) == s * s * ((N - 1) * N * (2 * N - 1) / 6)
  /\ Polyfit.power_sum 3 (rows s n) == s * s * s * (N * N * (N - 1) * (N - 1) / 4)
  /\ Polyfit.power_sum 4 (rows s n)
     == s * s * s * s * ((N - 1) * N * (2 * N - 1) * (3 * N * N - 3 * N - 1) / 30).
Proof.
  induction n as [| n IH]; cbv zeta in *.
  - unfold rows, Polyfit.power_sum.
    cbn [seq map Polyfit.qsum fold_right Z.of_nat]. repeat split; field.
  - destruct IH as (H0 & H1 & H2 & H3 & H4).
    rewrite rows_succ, !power_sum_snoc, H0, H1, H2, H3, H4, inject_succ.
    simpl Polyfit.pow.
    repeat split; field.
Qed.

Lemma normal_det_rows (s : Q) (n : nat) :
  let N := inject_Z (Z.of_nat n) in
  Polyfit.normal_det (rows s n)
  == s * s * s * s * s * s
     * (N * N * N * ((N * N - 1) * (N * N - 1)) * (N * N - 4) / 2160).
Proof.
  cbv zeta. unfold Polyfit.normal_det, Polyfit.det3.
  destruct (power_sums_rows s n) as (H0 & H1 & H2 & H3 & H4). cbv zeta in *.
  rewrite H0, H1, H2, H3, H4. field.
Qed.

Lemma inject_nat_ge3 (n : nat) : (3 <= n)%nat -> 3 <= inject_Z (Z.of_nat n).
Proof.
  intros H. change 3 with (inject_Z 3). rewrite <- Zle_Qle. lia.
Qed.

Lemma normal_det_rows_nonzero (s : Q) (n : nat) :
  ~ s == 0 -> (3 <= n)%nat -> ~ Polyfit.normal_det (rows s n) == 0.
Proof.
  intros Hs Hn. rewrite normal_det_rows. cbv zeta.
  pose proof (inject_nat_ge3 n Hn) as HN.
  set (N := inject_Z (Z.of_nat n)) in *.
  assert (H0 : 0 < N) by (eapply Qlt_le_trans; [| exact HN]; reflexivity).
  assert (H1 : 0 < N * N - 1).
  { setoid_replace (N * N - 1) with ((N - 3) * (N + 3) + 8) by ring.
    apply Qlt_le_trans with (y := 0 + 8); [reflexivity |].
    apply Qplus_le_compat; [| apply Qle_refl].
    apply Qmult_le_0_compat.
    - setoid_replace 0 with (3 - 3) by ring.
      apply Qplus_le_compat; [exact HN | apply Qle_refl].
    - apply Qle_trans with (y := 3 + 3); [discriminate |].
      apply Qplus_le_compat; [exact HN | apply Qle_refl]. }
  assert (H4 : 0 < N * N - 4).
  { setoid_replace (N * N - 4) with ((N * N - 1) - 3) by ring.
    setoid_replace (N * N - 1) with ((N - 3) * (N + 3) + 8) by ring.
    setoid_replace ((N - 3) * (N + 3) + 8 - 3) with ((N - 3) * (N + 3) + 5)
      by ring.
    apply Qlt_le_trans with (y := 0 + 5); [reflexivity |].
    apply Qplus_le_compat; [| apply Qle_refl].
    apply Qmult_le_0_compat.
    - setoid_replace 0 with (3 - 3) by ring.
      apply Qplus_le_compat; [exact HN | apply Qle_refl].
    - apply Qle_trans with (y := 3 + 3); [discriminate |].
      apply Qplus_le_compat; [exact HN | apply Qle_refl]. }
  intros E.
  assert (Hpos : 0 < s * s * s * s * s * s
                     * (N * N * N * ((N * N - 1) * (N * N - 1)) * (N * N - 4) / 2160)).
  { apply Qmult_lt_0_compat.
    - setoid_replace (s * s * s * s * s * s)
        with ((s * s * s) * (s * s * s)) by ring.
      destruct (Q_dec (s * s * s) 0) as [[Hlt | Hgt] | Heq].
      + setoid_replace (s * s * s * (s * s * s))
          with ((- (s * s * s)) * (- (s * s * s))) by ring.
        apply Qmult_lt_0_compat;
          (setoid_replace 0 with (- 0) by ring; now apply Qopp_lt_compat).
      + now apply Qmult_lt_0_compat.
      + exfalso. apply Hs.
        destruct (Qmult_integral _ _ Heq) as [H | H]; [| exact H].
        destruct (Qmult_integral _ _ H) as [H' | H']; exact H'.
    - apply Qlt_shift_div_l; [reflexivity |].
      setoid_replace (0 * 2160) with 0 by ring.
      repeat apply Qmult_lt_0_compat; assumption. }
  rewrite E in Hpos. discriminate.
Qed.

Lemma Forall2_map_same {A : Type} (R : Q -> Q -> Prop) (g k : A -> Q)
    (l : list A) :
  (forall z, R (g z) (k z)) -> Forall2 R (map g l) (map k l).
Proof.
  intros H. induction l as [| z l IH]; simpl; constructor; auto.
Qed.

(** The full-rank solution of data lying on a parabola is that parabola. *)
Lemma full_rank_parabola (A B C : Q) (ys xs : list Q) :
  Forall2 (fun y x => x == A * (y * y) + B * y + C) ys xs ->
  ~ Polyfit.normal_det ys == 0 ->
  Polyfit.full_rank_solution ys xs = mkFit (Qred A) (Qred B) (Qred C).
Proof.
  intros Hxs Hd.
  pose proof (moment_parabola 0 A B C ys xs Hxs) as H0.
  pose proof (moment_parabola 1 A B C ys xs Hxs) as H1.
  pose proof (moment_parabola 2 A B C ys xs Hxs) as H2.
  simpl plus in H0, H1, H2.
  unfold Polyfit.full_rank_solution. cbv zeta.
  unfold Polyfit.normal_det, Polyfit.det3 in *.
  f_equal; apply Qred_complete; rewrite H0, H1, H2; field; exact Hd.
Qed.

Lemma polyfit_full_rank (ys xs : list Q) :
  ys <> [] -> ~ Polyfit.normal_det ys == 0 ->
  Polyfit.polyfit ys xs = Ok (Polyfit.full_rank_solution ys xs).
Proof.
  intros Hne Hd. unfold Polyfit.polyfit.
  destruct ys as [| y ys]; [congruence |].
  destruct (Qeq_bool (Polyfit.normal_det (y :: ys)) 0) eqn:E.
  - apply Qeq_bool_iff in E. contradiction.
  - reflexivity.
Qed.

Lemma metric_fit_conversion (h : Z) (f : Fit) :
  (3 <= h)%Z ->
  metric_fit h f
  = Ok {| fit0 := Qred (fit0 f * xm_per_pix / (ym_per_pix * ym_per_pix));
          fit1 := Qred (fit1 f * xm_per_pix / ym_per_pix);
          fit2 := Qred (fit2 f * xm_per_pix) |}.
Proof.
  intros Hh. unfold metric_fit, metric_points, linspace0, range.
  change (map (fun y : Q => y * ym_per_pix)
              (map inject_Z (map Z.of_nat (seq 0 (Z.to_nat h)))))
    with (rows ym_per_pix (Z.to_nat h)).
  assert (Hd : ~ Polyfit.normal_det (rows ym_per_pix (Z.to_nat h)) == 0)
    by (apply normal_det_rows_nonzero; [discriminate | lia]).
  rewrite polyfit_full_rank; [| | exact Hd].
  - f_equal. apply full_rank_parabola; [| exact Hd].
    unfold rows, poly_eval_all. rewrite !map_map.
    apply Forall2_map_same. intros z. unfold poly_eval.
    unfold ym_per_pix, xm_per_pix. field.
  - intros E. apply (f_equal (@length Q)) in E.
    unfold rows in E. rewrite !length_map, length_seq in E.
    simpl in E. lia.
Qed.
End Refit.

Section Scaling.
Local Open Scope Q_scope.

Lemma pow_mul (k : nat) (y s : Q) :
  Polyfit.pow k (y * s) == Polyfit.pow k y * Polyfit.pow k s.
Proof.
  induction k as [| k IH]; simpl; [ring |]. rewrite IH. ring.
Qed.

Lemma power_sum_scale (k : nat) (s : Q) (ys : list Q) :
  Polyfit.power_sum k (map (fun y => y * s) ys)
  == Polyfit.pow k s * Polyfit.power_sum k ys.
Proof.
  unfold Polyfit.power_sum.
  induction ys as [| y ys IH]; cbn [map].
  - cbn [Polyfit.qsum fold_right]. ring.
  - rewrite !qsum_cons, IH, pow_mul. ring.
Qed.

Lemma moment_scale (k : nat) (s t : Q) (ys xs : list Q) :
  Polyfit.moment k (map (fun y => y * s) ys) (map (fun x => x * t) xs)
  == t * Polyfit.pow k s * Polyfit.moment k ys xs.
Proof.
  unfold Polyfit.moment, Polyfit.dot. revert ys.
  induction xs as [| x xs IH]; intros [| y ys]; cbn [map combine];
    try (cbn [Polyfit.qsum fold_right]; ring).
  rewrite !qsum_cons, IH. cbn [fst snd]. rewrite pow_mul. ring.
Qed.

Lemma normal_det_scale (s : Q) (ys : list Q) :
  Polyfit.normal_det (map (fun y => y * s) ys)
  == s * s * s * s * s * s * Polyfit.normal_det ys.
Proof.
  unfold Polyfit.normal_det, Polyfit.det3.
  rewrite !power_sum_scale. simpl Polyfit.pow. ring.
Qed.

Lemma polyfit_scale (s t : Q) (ys xs : list Q) (f : Fit) :
  ~ s == 0 -> ~ Polyfit.normal_det ys == 0 ->
  Polyfit.polyfit ys xs = Ok f ->
  Polyfit.polyfit (map (fun y => y * s) ys) (map (fun x => x * t) xs)
  = Ok {| fit0 := Qred (fit0 f * t / (s * s));
          fit1 := Qred (fit1 f * t / s);
          fit2 := Qred (fit2 f * t) |}.
Proof.
  intros Hs Hd Hf.
  assert (Hne : ys <> []) by (intros ->; discriminate Hf).
  rewrite polyfit_full_rank in Hf by assumption.
  injection Hf as <-.
  assert (Hd' : ~ Polyfit.normal_det (map (fun y => y * s) ys) == 0).
  { rewrite normal_det_scale. intros E.
    repeat (apply Qmult_integral in E; destruct E as [E | E]);
      contradiction. }
  rewrite polyfit_full_rank; [| destruct ys; [congruence | discriminate] | exact Hd'].
  f_equal. unfold Polyfit.full_rank_solution. cbv zeta. cbn [fit0 fit1 fit2].
  f_equal; apply Qred_complete; rewrite !Qred_correct;
    unfold Polyfit.normal_det, Polyfit.det3 in *;
    rewrite !power_sum_scale, !moment_scale; simpl Polyfit.pow;
    field; repeat split; try exact Hd; try exact Hs;
    intros E;
    match type of Hd with
    | ~ ?D == 0 =>
        assert (E' : s * s * s * s * s * s * D == 0) by (rewrite <- E; ring)
    end;
    repeat (apply Qmult_integral in E'; destruct E' as [E' | E']);
    contradiction.
Qed.
End Scaling.

(** C9, as the code has it.  In a frame of at least 3 rows the
    metric-space fit of a lane is computed from the pixel-space fit alone:
    least squares is redone on the H points of the pixel-space curve
    sampled on the rows 0..H-1 and converted to metres, and the result is
    (in exact arithmetic) the unit conversion of the pixel-space
    coefficients.  The detected pixels enter only through the pixel-space
    fit; when that fit is the least-squares fit of a detected set with
    three distinct rows, the metric fit is also the least-squares fit of
    the detected points converted to metres. *)
Theorem C9_metric_fit_from_pixel_fit (bw : Image) (fit : Fit) :
  3 <= height bw ->
  metric_points (height bw) fit
  = (map (fun y => y * ym_per_pix)%Q (linspace0 (height bw)),
     map (fun y => poly_eval fit y * xm_per_pix)%Q (linspace0 (height bw)))
  /\ metric_fit (height bw) fit = Ok (unit_conversion fit)
  /\ (forall ys xs : list Z,
         ~ (Polyfit.normal_det (map inject_Z ys) == 0)%Q ->
         polyfitZ ys xs = Ok fit ->
         Polyfit.polyfit (fst (detected_metric_points ys xs))
                         (snd (detected_metric_points ys xs))
         = metric_fit (height bw) fit).
Proof.
  intros Hh. split; [| split].
  - unfold metric_points, poly_eval_all. now rewrite map_map.
  - now apply metric_fit_conversion.
  - intros ys xs Hd Hf. rewrite metric_fit_conversion by exact Hh.
    unfold detected_metric_points, fst, snd.
    apply (polyfit_scale ym_per_pix xm_per_pix _ _ fit);
      [discriminate | exact Hd | exact Hf].
Qed.

Lemma C9_metric_fit_witness :
  3 <= height two_columns
  /\ metric_fit (height two_columns) (mkFit 0 0 (3 # 2))
     = Ok (unit_conversion (mkFit 0 0 (3 # 2))).
Proof.
  assert (H : 3 <= height two_columns) by (vm_compute; discriminate).
  split; [exact H |].
  exact (proj1 (proj2 (C9_metric_fit_from_pixel_fit two_columns
                         (mkFit 0 0 (3 # 2)) H))).
Defined.

(** C9 as stated fails on [two_columns].  The search detects 18 pixels per
    lane (columns 1 and 2 on each of the 9 rows) and the pixel-space fit
    is [x = 3/2]; the metric fit is redone on 9 points, one per row, taken
    from that curve, which are not the detected pixels converted to
    metres; and with the same frame and the same detected pixels a
    different pixel-space fit gives a different metric fit. *)
Lemma C9_refit_points_counterexample :
  is_ok (find_lane_pixels two_columns) = true
  /\ fit_polynomial two_columns = Ok (mkFit 0 0 (3 # 2), mkFit 0 0 (3 # 2))
  /\ length (leftx (detected two_columns)) = 18%nat
  /\ length (snd (metric_points (height two_columns) (mkFit 0 0 (3 # 2)))) = 9%nat
  /\ metric_points (height two_columns) (mkFit 0 0 (3 # 2))
     <> detected_metric_points (lefty (detected two_columns))
                               (leftx (detected two_columns))
  /\ metric_fit (height two_columns) (mkFit 0 0 5)
     <> metric_fit (height two_columns) (mkFit 0 0 (3 # 2)).
Proof.
  split; [vm_compute; reflexivity |].
  split; [vm_compute; reflexivity |].
  split; [vm_compute; reflexivity |].
  split; [vm_compute; reflexivity |].
  split; vm_compute; discriminate.
Qed.

(** ** Rescaling a uniform frame *)

Section Rescaling.
Local Open Scope R_scope.

Lemma fold_Rmax_ge_init (l : list R) (v : R) : v <= fold_left Rmax l v.
Proof.
  revert v. induction l as [| a l IH]; intros v; simpl.
  - lra.
  - eapply Rle_trans; [apply (Rmax_l v a) | apply IH].
Qed.

Lemma fold_Rmax_ge_In (l : list R) (v x : R) :
  In x l -> x <= fold_left Rmax l v.
Proof.
  revert v. induction l as [| a l IH]; intros v Hx; simpl in *.
  - contradiction.
  - destruct Hx as [-> | Hx].
    + eapply Rle_trans; [apply (Rmax_r v x) | apply fold_Rmax_ge_init].
    + now apply IH.
Qed.

Lemma np_max_ge (l : list R) (x : R) : In x l -> x <= np_max l.
Proof.
  destruct l as [| v l]; simpl; [contradiction |].
  intros [-> | Hx]; [apply fold_Rmax_ge_init | now apply fold_Rmax_ge_In].
Qed.

Lemma uniform_all_zero (l : list R) (x : R) :
  Forall (fun v => 0 <= v) l -> np_max l = 0 -> In x l -> x = 0.
Proof.
  intros Hpos Hmax Hx.
  pose proof (np_max_ge l x Hx) as Hle. rewrite Hmax in Hle.
  rewrite Forall_forall in Hpos. specialize (Hpos x Hx). lra.
Qed.

Lemma fdiv_zero_zero : fdiv 0 0 = NaN.
Proof.
  unfold fdiv. destruct (Req_dec_T 0 0) as [_ | H]; [| lra].
  destruct (Rlt_dec 0 0) as [H | _]; [lra | reflexivity].
Qed.

End Rescaling.

(** C7, as the code has it.  When a gradient channel's frame-wide maximum
    is 0, the rescaling of [abs_sobel_thresh] and of [mag_thresh] divides
    by zero without a guard: every rescaled value is the float NaN (numpy
    warns, nothing is raised), and the 8-bit value stored for every pixel
    is what the cast to [np.uint8] makes of NaN. *)
Theorem C7_rescale_uniform (special : Z) (abs_sobel : list R) :
  Forall (fun v => (0 <= v)%R) abs_sobel ->
  np_max abs_sobel = 0%R ->
  Forall (fun q => q = NaN) (rescale_abs_sobel abs_sobel)
  /\ Forall (fun q => q = NaN) (rescale_magnitude abs_sobel)
  /\ Forall (fun z => z = special) (scaled_sobel special abs_sobel)
  /\ Forall (fun z => z = special) (scaled_magnitude special abs_sobel).
Proof.
  intros Hpos Hmax.
  assert (H1 : Forall (fun q => q = NaN) (rescale_abs_sobel abs_sobel)).
  { unfold rescale_abs_sobel. rewrite Hmax. apply Forall_forall.
    intros q Hq. apply in_map_iff in Hq. destruct Hq as (v & <- & Hv).
    rewrite (uniform_all_zero _ _ Hpos Hmax Hv), Rmult_0_r.
    apply fdiv_zero_zero. }
  assert (H2 : Forall (fun q => q = NaN) (rescale_magnitude abs_sobel)).
  { unfold rescale_magnitude. rewrite Hmax. apply Forall_forall.
    intros q Hq. apply in_map_iff in Hq. destruct Hq as (v & <- & Hv).
    rewrite (uniform_all_zero _ _ Hpos Hmax Hv).
    replace (0 / 255)%R with 0%R by lra. apply fdiv_zero_zero. }
  split; [exact H1 |]. split; [exact H2 |]. split.
  - unfold scaled_sobel. apply Forall_forall. intros z Hz.
    apply in_map_iff in Hz. destruct Hz as (q & <- & Hq).
    rewrite Forall_forall in H1. now rewrite (H1 q Hq).
  - unfold scaled_magnitude. apply Forall_forall. intros z Hz.
    apply in_map_iff in Hz. destruct Hz as (q & <- & Hq).
    rewrite Forall_forall in H2. now rewrite (H2 q Hq).
Qed.

Lemma np_max_uniform_sobel : np_max uniform_sobel = 0%R.
Proof.
  assert (E : Rmax 0 0 = 0%R) by (apply Rmax_left; lra).
  unfold uniform_sobel, np_max. simpl. now rewrite !E.
Qed.

Lemma C7_rescale_uniform_witness :
  Forall (fun v => (0 <= v)%R) uniform_sobel
  /\ np_max uniform_sobel = 0%R
  /\ Forall (fun q => q = NaN) (rescale_abs_sobel uniform_sobel).
Proof.
  assert (H1 : Forall (fun v => (0 <= v)%R) uniform_sobel)
    by (repeat constructor; apply Rle_refl).
  assert (H2 : np_max uniform_sobel = 0%R).
  { apply np_max_uniform_sobel. }
  split; [exact H1 |]. split; [exact H2 |].
  exact (proj1 (C7_rescale_uniform 0 uniform_sobel H1 H2)).
Defined.

(** C7 as stated fails: on a uniform frame (all Sobel values 0, maximum
    0) both rescalings evaluate 0/0, and the rescaled value of every pixel
    is NaN, not 0. *)
Lemma C7_zero_guard_counterexample :
  np_max uniform_sobel = 0%R
  /\ rescale_abs_sobel uniform_sobel = [NaN; NaN; NaN; NaN]
  /\ rescale_magnitude uniform_sobel = [NaN; NaN; NaN; NaN]
  /\ NaN <> Finite 0.
Proof.
  assert (H2 : np_max uniform_sobel = 0%R).
  { apply np_max_uniform_sobel. }
  split; [exact H2 |].
  split; [| split; [| discriminate]].
  - unfold rescale_abs_sobel. rewrite H2. unfold uniform_sobel. simpl.
    now rewrite Rmult_0_r, fdiv_zero_zero.
  - unfold rescale_magnitude. rewrite H2. unfold uniform_sobel. simpl.
    replace (0 / 255)%R with 0%R by lra. now rewrite fdiv_zero_zero.
Qed.

(** ** The inverse perspective transform *)

Section Perspective.
Local Open Scope Q_scope.

Lemma inject_Z_pos (z : Z) : (0 < z)%Z -> 0 < inject_Z z.
Proof. intros H. change 0 with (inject_Z 0). now rewrite <- Zlt_Qlt. Qed.

Lemma inverse_transform_solves (W H : Z) :
  (0 < W)%Z -> (0 < H)%Z ->
  transform_equations (destination_quad W H) (source_quad W H)
                      (inverse_transform W H).
Proof.
  intros HW HH. apply inject_Z_pos in HW, HH.
  unfold transform_equations, destination_quad, source_quad, inverse_transform.
  cbn [m11 m12 m13 m21 m22 m23 m31 m32 m33].
  generalize dependent (inject_Z W). generalize dependent (inject_Z H).
  intros h HH w HW.
  assert (Hw : ~ w == 0) by Lqa.lra.
  assert (Hh : ~ h == 0) by Lqa.lra.
  assert (Ht : ~ 2 * w + 210 == 0) by Lqa.lra.
  split; [reflexivity |].
  repeat (apply Forall2_cons; [unfold point_equations; cbn [m11 m12 m13 m21 m22 m23 m31 m32 m33]; split; field; auto |]).
  apply Forall2_nil.
Qed.

Lemma Qmult_zero_l_cancel (x z : Q) : ~ z == 0 -> x * z == 0 -> x == 0.
Proof.
  intros Hz H. destruct (Qmult_integral _ _ H) as [E | E]; [exact E | contradiction].
Qed.

Lemma Qeq_quotient (x y z : Q) : ~ z == 0 -> x * z == y -> x == y / z.
Proof. intros Hz H. rewrite <- H. field. exact Hz. Qed.

Lemma inverse_transform_unique (W H : Z) (M : Matrix3) :
  (0 < W)%Z -> (0 < H)%Z -> H <> 200%Z ->
  transform_equations (destination_quad W H) (source_quad W H) M ->
  Matrix3_eq M (inverse_transform W H).
Proof.
  intros HW HH H200 [H33 HF].
  assert (Hne : ~ inject_Z H == 200).
  { intros C. apply H200. change 200 with (inject_Z 200) in C.
    exact (proj1 (inject_Z_injective H 200) C). }
  apply inject_Z_pos in HW, HH.
  unfold destination_quad, source_quad in HF.
  unfold Matrix3_eq, inverse_transform.
  cbn [m11 m12 m13 m21 m22 m23 m31 m32 m33].
  destruct M as [a b c d e f g k i].
  cbn [m11 m12 m13 m21 m22 m23 m31 m32 m33] in *.
  revert HF Hne HW HH.
  generalize (inject_Z W) (inject_Z H). intros w h HF Hne HW HH.
  inversion HF as [| ? ? ? ? E0 HF1]; subst; clear HF.
  inversion HF1 as [| ? ? ? ? E1 HF2]; subst; clear HF1.
  inversion HF2 as [| ? ? ? ? E2 HF3]; subst; clear HF2.
  inversion HF3 as [| ? ? ? ? E3 HF4]; subst; clear HF3 HF4.
  unfold point_equations in E0, E1, E2, E3.
  cbn [m11 m12 m13 m21 m22 m23 m31 m32 m33] in *.
  destruct E0 as [E0a E0b], E1 as [E1a E1b], E2 as [E2a E2b], E3 as [E3a E3b].
  assert (Hw : ~ w == 0) by Lqa.lra.
  assert (Hh : ~ h == 0) by Lqa.lra.
  assert (Ht : ~ 2 * w + 210 == 0) by Lqa.lra.
  unfold Qdiv in E0a, E0b, E1a, E1b, E2a, E2b, E3a, E3b.
  change (/ 2) with (1 # 2) in *. change (/ 4) with (1 # 4) in *.
  change (/ 6) with (1 # 6) in *.
  assert (Hg0 : g * ((200 - h) * w) == 0) by Lqa.lra.
  assert (Hg : g == 0).
  { apply (Qmult_zero_l_cancel _ _) in Hg0; [exact Hg0 |].
    intros C. destruct (Qmult_integral _ _ C) as [C' | C']; Lqa.lra. }
  rewrite Hg, H33 in *.
  assert (Hd : d == 0).
  { assert (Hd0 : d * w == 0) by Lqa.lra.
    apply (Qmult_zero_l_cancel _ _) in Hd0; [exact Hd0 | Lqa.lra]. }
  rewrite Hd in *.
  assert (Hf : f == h * (1 # 2) + 100) by Lqa.lra.
  assert (Ha : a * w == 220) by Lqa.lra.
  assert (Hc : c == w * (1 # 2) - 110) by Lqa.lra.
  assert (Hk : k * (h * (2 * w + 210)) == 120 - 2 * w) by Lqa.lra.
  assert (He : e * h == (k * h + 1) * h - f) by Lqa.lra.
  assert (Hb : b * h == (k * h + 1) * (w * (1 # 6) - 10) - a * (w * (1 # 4)) - c)
    by Lqa.lra.
  assert (Ha' : a == 220 / w) by (apply Qeq_quotient; assumption).
  assert (Hk' : k == (330 / (2 * w + 210) - 1) / h).
  { rewrite (Qeq_quotient k (120 - 2 * w) (h * (2 * w + 210)));
      [field; split; assumption | | exact Hk].
    intros C. destruct (Qmult_integral _ _ C) as [C' | C']; contradiction. }
  assert (He' : e == (h * (330 / (2 * w + 210)) - (h / 2 + 100)) / h).
  { rewrite (Qeq_quotient e _ h Hh He), Hk', Hf. field. split; assumption. }
  assert (Hb' : b == ((w / 6 - 10) * (330 / (2 * w + 210)) - w / 2 + 55) / h).
  { rewrite (Qeq_quotient b _ h Hh Hb), Hk', Ha', Hc. field.
    repeat split; assumption. }
  split; [exact Ha' |]. split; [exact Hb' |].
  split; [rewrite Hc; field |]. split; [reflexivity |].
  split; [exact He' |]. split; [rewrite Hf; field |].
  split; [reflexivity |]. split; [exact Hk' | reflexivity].
Qed.

Lemma Qeq_bool_false (x y : Q) : ~ x == y -> Qeq_bool x y = false.
Proof.
  intros H. destruct (Qeq_bool x y) eqn:E; [| reflexivity].
  apply Qeq_bool_iff in E. contradiction.
Qed.

Lemma point_equations_project (M : Matrix3) (p q : Q * Q) :
  ~ m31 M * fst p + m32 M * snd p + m33 M == 0 ->
  point_equations M p q -> projects_to M p q.
Proof.
  destruct p as [x y], q as [x' y']. cbn [fst snd]. intros Ht [E1 E2].
  unfold projects_to, project. rewrite (Qeq_bool_false _ _ Ht).
  eexists. split; [reflexivity |]. cbn [fst snd].
  split; [rewrite E1 | rewrite E2]; field; exact Ht.
Qed.

Lemma inverse_transform_denominators (W H : Z) (M : Matrix3) :
  (0 < W)%Z -> (0 < H)%Z ->
  Matrix3_eq M (inverse_transform W H) ->
  Forall (fun p => ~ m31 M * fst p + m32 M * snd p + m33 M == 0)
         (destination_quad W H).
Proof.
  intros HW HH (_ & _ & _ & _ & _ & _ & E31 & E32 & E33).
  apply inject_Z_pos in HW, HH.
  unfold inverse_transform in E31, E32, E33.
  cbn [m11 m12 m13 m21 m22 m23 m31 m32 m33] in E31, E32, E33.
  unfold destination_quad.
  revert E32 HW HH. generalize (inject_Z W) (inject_Z H). intros w h E32 HW HH.
  assert (Hw : ~ w == 0) by Lqa.lra.
  assert (Hh : ~ h == 0) by Lqa.lra.
  assert (Ht : ~ 2 * w + 210 == 0) by Lqa.lra.
  assert (T0 : forall x, m31 M * x + m32 M * 0 + m33 M == 1).
  { intros x. rewrite E31, E33. ring. }
  assert (Th : forall x, m31 M * x + m32 M * h + m33 M == 330 / (2 * w + 210)).
  { intros x. rewrite E31, E32, E33. field. split; assumption. }
  assert (Hq : ~ 330 / (2 * w + 210) == 0).
  { intros C. assert (X : 330 == 330 / (2 * w + 210) * (2 * w + 210))
      by (field; exact Ht).
    rewrite C in X. revert X. generalize (2 * w + 210). intros z X.
    Lqa.lra. }
  repeat constructor; cbn [fst snd]; rewrite ?T0, ?Th;
    try exact Hq; discriminate.
Qed.

Lemma Forall2_project (M : Matrix3) (ps qs : list (Q * Q)) :
  Forall (fun p => ~ m31 M * fst p + m32 M * snd p + m33 M == 0) ps ->
  Forall2 (point_equations M) ps qs ->
  Forall2 (projects_to M) ps qs.
Proof.
  intros Hd HF. induction HF as [| p q ps qs E HF IH]; [constructor |].
  inversion Hd; subst. constructor; [| now apply IH].
  now apply point_equations_project.
Qed.

End Perspective.




(** * Further properties of the search, the fits and the session *)

(** ** Lanes found by the sliding-window search *)

Section LaneInvariant.

Lemma nonzero_row_NoDup (row : list Z) :
  forall y x0, NoDup (Np.nonzero_row y x0 row).
Proof.
  induction row as [| a row IH]; intros y x0; simpl.
  - constructor.
  - destruct (a =? 0); [apply IH |]. constructor; [| apply IH].
    rewrite nonzero_row_In. intros (j & v & E & _). injection E as E. lia.
Qed.

Lemma NoDup_app_disjoint {A : Type} (l1 l2 : list A) :
  NoDup l1 -> NoDup l2 -> (forall a, In a l1 -> In a l2 -> False) ->
  NoDup (l1 ++ l2).
Proof.
  induction l1 as [| a l1 IH]; intros H1 H2 Hd; simpl; [exact H2 |].
  inversion H1 as [| ? ? Ha H1']; subst. constructor.
  - rewrite in_app_iff. intros [H | H]; [contradiction |].
    apply (Hd a); [left; reflexivity | exact H].
  - apply IH; try assumption. intros b Hb1 Hb2.
    apply (Hd b); [right; exact Hb1 | exact Hb2].
Qed.

Lemma nonzero_from_NoDup (img : Image) :
  forall y0, NoDup (Np.nonzero_from y0 img).
Proof.
  induction img as [| row img IH]; intros y0; simpl.
  - constructor.
  - apply NoDup_app_disjoint; [apply nonzero_row_NoDup | apply IH |].
    intros p H1 H2. apply nonzero_row_In in H1. apply nonzero_from_In in H2.
    destruct H1 as (j & v & -> & _). destruct H2 as (i & j' & v' & E & _).
    injection E as E _. lia.
Qed.

Lemma nonzero_NoDup (img : Image) : NoDup (Np.nonzero img).
Proof. apply nonzero_from_NoDup. Qed.

Lemma window_height_nonneg (bw : Image) : 0 <= window_height bw.
Proof.
  unfold window_height, nwindows, height, shape. simpl.
  apply Z.div_pos; lia.
Qed.

Lemma lane_ok_step (bw : Image) (k c : Z) (lane : list (Z * Z)) :
  0 <= k ->
  lane_ok bw k lane ->
  lane_ok bw (k + 1)
    (lane ++ good_inds (height bw) (window_height bw) k c (Np.nonzero bw)).
Proof.
  intros Hk (Hnd & Hin).
  pose proof (window_height_nonneg bw) as Hwh.
  split.
  - apply NoDup_app_disjoint; [exact Hnd | |].
    + unfold good_inds. apply NoDup_filter, nonzero_NoDup.
    + intros p H1 H2. apply Hin in H1. apply good_inds_In in H2.
      unfold win_y_high in H2. lia.
  - intros p Hp. apply in_app_iff in Hp. destruct Hp as [Hp | Hp].
    + apply Hin in Hp. split; [tauto |]. nia.
    + apply good_inds_In in Hp. unfold win_y_low, win_y_high in Hp.
      split; [tauto |]. nia.
Qed.

Lemma window_state_lanes_ok (bw : Image) (lb rb : Z) (n : nat) :
  lane_ok bw (Z.of_nat n) (left_lane_inds (window_state bw lb rb (Z.of_nat n)))
  /\ lane_ok bw (Z.of_nat n)
             (right_lane_inds (window_state bw lb rb (Z.of_nat n))).
Proof.
  induction n as [| n [IHl IHr]].
  - split; (split; [constructor | intros p []]).
  - rewrite Nat2Z.inj_succ. unfold Z.succ.
    rewrite window_state_succ by lia. unfold window_step.
    cbn [left_lane_inds right_lane_inds].
    split; apply lane_ok_step; try lia; assumption.
Qed.

Lemma combine_fst_snd {A B : Type} (l : list (A * B)) :
  combine (map fst l) (map snd l) = l.
Proof.
  induction l as [| [a b] l IH]; simpl; [reflexivity |]. now rewrite IH.
Qed.

Lemma Ok_inj {A : Type} (a b : A) : Ok a = Ok b -> b = a.
Proof. intros H. injection H as ->. reflexivity. Qed.

Lemma find_lane_pixels_lanes (bw : Image) (px : LanePixels) :
  find_lane_pixels bw = Ok px ->
  exists lb rb,
    px = {| leftx := map snd (left_lane_inds (window_state bw lb rb 9));
            lefty := map fst (left_lane_inds (window_state bw lb rb 9));
            rightx := map snd (right_lane_inds (window_state bw lb rb 9));
            righty := map fst (right_lane_inds (window_state bw lb rb 9)) |}.
Proof.
  unfold find_lane_pixels.
  destruct (leftx_base bw) as [lb | e]; cbn [bind]; [| discriminate].
  destruct (rightx_base bw) as [rb | e]; cbn [bind]; [| discriminate].
  cbv zeta. unfold run_windows, nwindows.
  intros H. exists lb, rb. apply Ok_inj. exact H.
Qed.

End LaneInvariant.

(** X1.  Whatever [find_lane_pixels] returns, the two coordinate arrays of
    each lane have the same length, no pixel occurs twice in a lane, and
    every pixel of either lane is a nonzero pixel of the frame that lies
    on the rows spanned by the nine windows. *)
Theorem find_lane_pixels_sound (bw : Image) (px : LanePixels) :
  find_lane_pixels bw = Ok px ->
  length (leftx px) = length (lefty px)
  /\ length (rightx px) = length (righty px)
  /\ NoDup (combine (lefty px) (leftx px))
  /\ NoDup (combine (righty px) (rightx px))
  /\ forall p,
       In p (combine (lefty px) (leftx px))
       \/ In p (combine (righty px) (rightx px)) ->
       (exists (i j : nat) (v : Z),
           p = (Z.of_nat i, Z.of_nat j)
           /\ pixel_at bw i j = Some v /\ v <> 0)
       /\ height bw - 9 * (height bw / 9) <= fst p < height bw.
Proof.
  intros H. destruct (find_lane_pixels_lanes bw px H) as (lb & rb & ->).
  cbn [leftx lefty rightx righty]. rewrite !length_map, !combine_fst_snd.
  destruct (window_state_lanes_ok bw lb rb 9) as ((Hn1 & Hi1) & (Hn2 & Hi2)).
  change (Z.of_nat 9) with 9 in *.
  split; [reflexivity |]. split; [reflexivity |].
  split; [exact Hn1 |]. split; [exact Hn2 |].
  intros p [Hp | Hp]; [apply Hi1 in Hp | apply Hi2 in Hp];
    destruct Hp as (Hnz & Hrows); (split; [now apply nonzero_In |]);
    unfold window_height, nwindows in Hrows; lia.
Qed.

Lemma find_lane_pixels_sound_witness :
  find_lane_pixels two_columns = Ok (detected two_columns)
  /\ NoDup (combine (lefty (detected two_columns))
                    (leftx (detected two_columns))).
Proof.
  assert (H : find_lane_pixels two_columns = Ok (detected two_columns))
    by (vm_compute; reflexivity).
  split; [exact H |].
  exact (proj1 (proj2 (proj2 (find_lane_pixels_sound two_columns _ H)))).
Defined.

(** ** Narrow, short and dark frames *)

Section SearchEdgeCases.

Lemma width_nonneg (bw : Image) : 0 <= width bw.
Proof. unfold width, shape. simpl. lia. Qed.

Lemma height_nonneg (bw : Image) : 0 <= height bw.
Proof. unfold height, shape. simpl. lia. Qed.

Lemma leftx_base_narrow (bw : Image) :
  width bw < 2 -> leftx_base bw = Raise ValueError.
Proof.
  intros Hw. pose proof (width_nonneg bw) as H0.
  unfold leftx_base, midpoint. rewrite histogram_length.
  assert (E : width bw / 2 = 0) by (apply Z.div_small; lia).
  rewrite E. reflexivity.
Qed.

Lemma bases_in_range (bw : Image) :
  2 <= width bw ->
  exists lb rb,
    leftx_base bw = Ok lb /\ rightx_base bw = Ok rb
    /\ 0 <= lb < width bw / 2 /\ width bw / 2 <= rb < width bw.
Proof.
  intros Hw. pose proof (histogram_length bw) as Hlen.
  assert (Hmid : midpoint bw = width bw / 2)
    by (unfold midpoint; now rewrite Hlen).
  assert (Hm1 : 1 <= width bw / 2) by (apply Z.div_le_lower_bound; lia).
  assert (Hm2 : width bw / 2 < width bw) by (apply Z.div_lt_upper_bound; lia).
  destruct (argmax_first_max
              (firstn (Z.to_nat (midpoint bw)) (histogram bw)))
    as (lb & Hlb & (Hlr & _)).
  { intros E. apply (f_equal (@length Z)) in E.
    rewrite length_firstn in E. simpl in E. lia. }
  destruct (argmax_first_max
              (skipn (Z.to_nat (midpoint bw)) (histogram bw)))
    as (rb0 & Hrb & (Hrr & _)).
  { intros E. apply (f_equal (@length Z)) in E.
    rewrite length_skipn in E. simpl in E. lia. }
  rewrite length_firstn in Hlr. rewrite length_skipn in Hrr.
  exists lb, (rb0 + midpoint bw).
  split; [exact Hlb |].
  split; [unfold rightx_base, Np.drop; now rewrite Hrb |].
  rewrite Hmid in *. lia.
Qed.

Lemma filter_none {A : Type} (f : A -> bool) (l : list A) :
  (forall a, In a l -> f a = false) -> filter f l = [].
Proof.
  induction l as [| a l IH]; intros H; simpl; [reflexivity |].
  rewrite (H a) by (left; reflexivity). apply IH.
  intros b Hb. apply H. now right.
Qed.

(** The state of the window loop when no window selects a pixel. *)
Lemma window_state_no_pixels (bw : Image) (lb rb : Z) :
  (forall k c,
      good_inds (height bw) (window_height bw) k c (Np.nonzero bw) = []) ->
  forall n : nat,
    window_state bw lb rb (Z.of_nat n) = mkWinState lb rb [] [].
Proof.
  intros Hnone. induction n as [| n IH]; [reflexivity |].
  rewrite Nat2Z.inj_succ. unfold Z.succ.
  rewrite window_state_succ by lia. rewrite IH. unfold window_step.
  cbn [leftx_current rightx_current left_lane_inds right_lane_inds].
  rewrite !Hnone. reflexivity.
Qed.

Lemma find_lane_pixels_no_pixels (bw : Image) :
  2 <= width bw ->
  (forall k c,
      good_inds (height bw) (window_height bw) k c (Np.nonzero bw) = []) ->
  find_lane_pixels bw = Ok (mkLanePixels [] [] [] []).
Proof.
  intros Hw Hnone.
  destruct (bases_in_range bw Hw) as (lb & rb & Hl & Hr & _).
  unfold find_lane_pixels. rewrite Hl, Hr. cbn [bind].
  unfold run_windows, nwindows.
  change 9 with (Z.of_nat 9).
  rewrite (window_state_no_pixels bw lb rb Hnone). reflexivity.
Qed.

Lemma short_frame_no_pixels (bw : Image) :
  height bw < 9 ->
  forall k c,
    good_inds (height bw) (window_height bw) k c (Np.nonzero bw) = [].
Proof.
  intros Hh k c. pose proof (height_nonneg bw) as H0.
  assert (E : window_height bw = 0)
    by (unfold window_height, nwindows; apply Z.div_small; lia).
  unfold good_inds. apply filter_none. intros p _.
  unfold in_window, win_y_low, win_y_high. rewrite E.
  destruct (height bw - (k + 1) * 0 <=? fst p) eqn:E1;
    destruct (fst p <? height bw - k * 0) eqn:E2; try reflexivity.
  apply Z.leb_le in E1. apply Z.ltb_lt in E2. lia.
Qed.

Lemma dark_frame_nonzero (bw : Image) :
  (forall i j v, pixel_at bw i j = Some v -> v = 0) -> Np.nonzero bw = [].
Proof.
  intros Hdark. destruct (Np.nonzero bw) as [| p l] eqn:E; [reflexivity |].
  assert (Hp : In p (Np.nonzero bw)) by (rewrite E; left; reflexivity).
  apply nonzero_In in Hp. destruct Hp as (i & j & v & _ & Hv & Hne).
  apply Hdark in Hv. contradiction.
Qed.

Lemma fit_polynomial_no_pixels (bw : Image) :
  2 <= width bw ->
  (forall k c,
      good_inds (height bw) (window_height bw) k c (Np.nonzero bw) = []) ->
  fit_polynomial bw = Raise TypeError.
Proof.
  intros Hw Hnone. unfold fit_polynomial.
  rewrite (find_lane_pixels_no_pixels bw Hw Hnone). reflexivity.
Qed.

Lemma fit_polynomial_narrow (bw : Image) :
  width bw < 2 -> fit_polynomial bw = Raise ValueError.
Proof.
  intros Hw. unfold fit_polynomial, find_lane_pixels.
  now rewrite (leftx_base_narrow bw Hw).
Qed.

End SearchEdgeCases.

(** X2.  [find_lane_pixels] raises [ValueError] (from [np.argmax] on the
    empty left half of the histogram) on frames narrower than two
    columns; on every other frame it returns, with the left base in the
    left half of the columns and the right base in the right half. *)
Theorem find_lane_pixels_width (bw : Image) :
  (width bw < 2 -> find_lane_pixels bw = Raise ValueError)
  /\ (2 <= width bw ->
      exists px lb rb,
        find_lane_pixels bw = Ok px
        /\ leftx_base bw = Ok lb /\ rightx_base bw = Ok rb
        /\ 0 <= lb < width bw / 2 /\ width bw / 2 <= rb < width bw).
Proof.
  split.
  - intros Hw. unfold find_lane_pixels. now rewrite (leftx_base_narrow bw Hw).
  - intros Hw. destruct (bases_in_range bw Hw) as (lb & rb & Hl & Hr & Hb).
    eexists. exists lb, rb. split; [| now repeat split].
    unfold find_lane_pixels. rewrite Hl, Hr. reflexivity.
Qed.

(** X3.  On a frame of fewer than nine rows the window height [H // 9] is
    0, no window selects a pixel, and [fit_polynomial] always raises:
    [TypeError] from [np.polyfit] on the empty lane (or [ValueError] when
    the frame is narrower than two columns); a frame processed by
    sliding-window search then fails and leaves the tracker unchanged. *)
Theorem fit_polynomial_short_frame (bw : Image) :
  height bw < 9 ->
  fit_polynomial bw
  = Raise (if 2 <=? width bw then TypeError else ValueError)
  /\ forall t, strategy t = SlidingWindow ->
       pipeline t bw
       = (Raise (if 2 <=? width bw then TypeError else ValueError), t).
Proof.
  intros Hh.
  assert (E : fit_polynomial bw
              = Raise (if 2 <=? width bw then TypeError else ValueError)).
  { destruct (2 <=? width bw) eqn:Hw.
    - apply Z.leb_le in Hw. apply fit_polynomial_no_pixels; [exact Hw |].
      now apply short_frame_no_pixels.
    - apply Z.leb_gt in Hw. now apply fit_polynomial_narrow. }
  split; [exact E |].
  intros t Hs. unfold pipeline, fit_lanes. rewrite Hs, E. reflexivity.
Qed.

Lemma fit_polynomial_short_frame_witness :
  height short_frame < 9
  /\ fit_polynomial short_frame = Raise TypeError.
Proof.
  assert (H : height short_frame < 9) by (vm_compute; reflexivity).
  split; [exact H |].
  exact (proj1 (fit_polynomial_short_frame short_frame H)).
Defined.

(** X4.  On a frame at least two columns wide without a lit pixel,
    [pipeline] raises [TypeError] and leaves the tracker unchanged,
    whatever the tracker state and the search strategy. *)
Theorem pipeline_dark_frame (bw : Image) (t : Tracker) :
  2 <= width bw ->
  (forall i j v, pixel_at bw i j = Some v -> v = 0) ->
  pipeline t bw = (Raise TypeError, t).
Proof.
  intros Hw Hdark. pose proof (dark_frame_nonzero bw Hdark) as Hnz.
  apply pipeline_fit_raise. unfold fit_lanes.
  destruct (strategy t).
  - apply fit_polynomial_no_pixels; [exact Hw |].
    intros k c. unfold good_inds. now rewrite Hnz.
  - unfold get_fit.
    destruct (previous_fit (left_line t)) as [lf |]; [| reflexivity].
    destruct (previous_fit (right_line t)) as [rf |]; [| reflexivity].
    cbn [bind]. unfold search_around_poly, search_pixels.
    rewrite Hnz. reflexivity.
Qed.

Lemma pipeline_dark_frame_witness :
  2 <= width dark_2x2
  /\ (forall i j v, pixel_at dark_2x2 i j = Some v -> v = 0)
  /\ pipeline initial_tracker dark_2x2 = (Raise TypeError, initial_tracker).
Proof.
  assert (H1 : 2 <= width dark_2x2) by (vm_compute; discriminate).
  assert (H2 : forall i j v, pixel_at dark_2x2 i j = Some v -> v = 0).
  { intros [| [| [| i]]] [| [| [| j]]] v; cbn; intros E;
      try discriminate; now injection E as <-. }
  split; [exact H1 |]. split; [exact H2 |].
  exact (pipeline_dark_frame dark_2x2 initial_tracker H1 H2).
Defined.

(** ** Prior-guided search and the session state *)

Section PriorSearch.

Lemma near_poly_iff (f : Fit) (p : Z * Z) :
  near_poly f p = true <->
  (poly_eval f (inject_Z (fst p)) - 100 < inject_Z (snd p)
   /\ inject_Z (snd p) < poly_eval f (inject_Z (fst p)) + 100)%Q.
Proof.
  unfold near_poly. rewrite andb_true_iff, !Qlt_bool_iff. reflexivity.
Qed.

Lemma fit_poly_ok (h : Z) (px : LanePixels) (l r : Fit) :
  polyfitZ (lefty px) (leftx px) = Ok l ->
  polyfitZ (righty px) (rightx px) = Ok r ->
  exists v, fit_poly h px = Ok v.
Proof.
  intros Hl Hr. unfold fit_poly. rewrite Hl, Hr. cbn [bind].
  eexists. reflexivity.
Qed.

End PriorSearch.

Section SessionFacts.

Lemma tracker_wf_initial : tracker_wf initial_tracker.
Proof. left. repeat split. Qed.

Lemma tracker_wf_pipeline (t : Tracker) (img : Image) :
  tracker_wf t -> tracker_wf (snd (pipeline t img)).
Proof.
  intros Hwf.
  destruct (pipeline_cases t img) as [[out E] | [e E]]; rewrite E; simpl.
  - right. repeat split. eexists. eexists. split; reflexivity.
  - exact Hwf.
Qed.

Lemma tracker_wf_session (frames : list Image) :
  forall t, tracker_wf t -> tracker_wf (snd (run_session t frames)).
Proof.
  induction frames as [| f frames IH]; intros t Hwf.
  - exact Hwf.
  - rewrite run_session_cons. simpl snd. apply IH.
    now apply tracker_wf_pipeline.
Qed.

Lemma tracker_wf_prior (t : Tracker) (img : Image) :
  tracker_wf t -> strategy t = PriorGuided ->
  exists lf rf,
    previous_fit (left_line t) = Some lf
    /\ previous_fit (right_line t) = Some rf
    /\ fit_lanes t img = search_around_poly img lf rf.
Proof.
  intros [(Hl & Hr & _) | (_ & _ & lf & rf & Hl & Hr)] Hs.
  - unfold strategy in Hs. rewrite Hl in Hs. discriminate.
  - exists lf, rf. split; [exact Hl |]. split; [exact Hr |].
    now apply fit_lanes_prior.
Qed.

End SessionFacts.

(** X5.  The prior-guided search selects, for each lane, exactly the
    nonzero pixels whose column is strictly within 100 px of the previous
    fit evaluated at the pixel's row. *)
Theorem search_pixels_selection (bw : Image) (lf rf : Fit) (p : Z * Z) :
  (In p (combine (lefty (search_pixels bw lf rf))
                 (leftx (search_pixels bw lf rf)))
   <-> In p (Np.nonzero bw)
       /\ (poly_eval lf (inject_Z (fst p)) - 100 < inject_Z (snd p)
           /\ inject_Z (snd p) < poly_eval lf (inject_Z (fst p)) + 100)%Q)
  /\ (In p (combine (righty (search_pixels bw lf rf))
                    (rightx (search_pixels bw lf rf)))
      <-> In p (Np.nonzero bw)
          /\ (poly_eval rf (inject_Z (fst p)) - 100 < inject_Z (snd p)
              /\ inject_Z (snd p) < poly_eval rf (inject_Z (fst p)) + 100)%Q).
Proof.
  unfold search_pixels. cbn [leftx lefty rightx righty].
  rewrite !combine_fst_snd, !filter_In, !near_poly_iff. tauto.
Qed.

(** X6.  [search_around_poly] returns a pair of fits exactly when
    [np.polyfit] succeeds on both selected pixel sets, and then returns
    those two fits: the second fit made inside [fit_poly] never makes it
    raise and never changes its result. *)
Theorem search_around_poly_returns (bw : Image) (lf rf : Fit) :
  search_around_poly bw lf rf =
  (l <- polyfitZ (lefty (search_pixels bw lf rf))
                 (leftx (search_pixels bw lf rf)) ;;
   r <- polyfitZ (righty (search_pixels bw lf rf))
                 (rightx (search_pixels bw lf rf)) ;;
   Ok (l, r)).
Proof.
  unfold search_around_poly. cbv zeta.
  destruct (polyfitZ (lefty (search_pixels bw lf rf))
                     (leftx (search_pixels bw lf rf))) as [l | e] eqn:El;
    cbn [bind]; [| reflexivity].
  destruct (polyfitZ (righty (search_pixels bw lf rf))
                     (rightx (search_pixels bw lf rf))) as [r | e] eqn:Er;
    cbn [bind]; [| reflexivity].
  destruct (fit_poly_ok (height bw) _ l r El Er) as (v & ->). reflexivity.
Qed.

(** X7.  After any sequence of frames processed from two fresh [Line()]
    objects, the two [found] flags agree and a lane is found exactly when
    it holds a previous fit; so whenever prior-guided search is selected
    both previous fits exist and are the ones handed to
    [search_around_poly]. *)
Theorem session_tracker_invariant (frames : list Image) (img : Image) :
  tracker_wf (snd (run_session initial_tracker frames))
  /\ (strategy (snd (run_session initial_tracker frames)) = PriorGuided ->
      exists lf rf,
        previous_fit (left_line (snd (run_session initial_tracker frames)))
        = Some lf
        /\ previous_fit (right_line (snd (run_session initial_tracker frames)))
           = Some rf
        /\ fit_lanes (snd (run_session initial_tracker frames)) img
           = search_around_poly img lf rf).
Proof.
  pose proof (tracker_wf_session frames _ tracker_wf_initial) as Hwf.
  split; [exact Hwf |]. now apply tracker_wf_prior.
Qed.

(** X8.  After any sequence of frames the tracker holds the fits of the
    last frame that completed (with both lanes found), or is unchanged
    when no frame completed: frames that raise leave no trace. *)
Theorem session_keeps_last_completed (t : Tracker) (frames : list Image) :
  snd (run_session t frames)
  = match last_completed (fst (run_session t frames)) with
    | Some out => tracker_of out
    | None => t
    end.
Proof.
  revert t.
  induction frames as [| f frames IH]; intros t.
  - reflexivity.
  - rewrite run_session_cons. cbn [fst snd last_completed].
    rewrite IH.
    destruct (last_completed (fst (run_session (snd (pipeline t f)) frames)));
      [reflexivity |].
    destruct (pipeline_cases t f) as [[out E] | [e E]]; rewrite E; reflexivity.
Qed.

(** ** Curvature and offset *)

Section Geometry.

Lemma qmax_seq (m : nat) :
  forall a : nat,
    fold_left (fun mx x => if Qlt_bool mx x then x else mx)
              (map inject_Z (map Z.of_nat (seq (S a) m)))
              (inject_Z (Z.of_nat a))
    = inject_Z (Z.of_nat (a + m)).
Proof.
  induction m as [| m IH]; intros a.
  - simpl. now rewrite Nat.add_0_r.
  - cbn [seq map fold_left].
    assert (E : Qlt_bool (inject_Z (Z.of_nat a)) (inject_Z (Z.of_nat (S a)))
                = true).
    { apply Qlt_bool_iff. rewrite <- Zlt_Qlt. lia. }
    rewrite E, IH. do 2 f_equal. lia.
Qed.

Lemma qmax_linspace0 (h : Z) :
  1 <= h -> qmax_list (linspace0 h) = Ok (inject_Z (h - 1)).
Proof.
  intros Hh. unfold linspace0, range.
  destruct (Z.to_nat h) as [| n] eqn:E; [lia |].
  cbn [seq map qmax_list]. rewrite qmax_seq. do 2 f_equal. lia.
Qed.

Lemma Q2R_nonzero (q : Q) : ~ (q == 0)%Q -> Q2R q <> 0%R.
Proof.
  intros Hq E. apply Hq. apply eqR_Qeq. rewrite E. unfold Q2R. simpl. lra.
Qed.

Lemma Rpower_ge_1 (x : R) : (1 <= x)%R -> (1 <= Rpower x (3 / 2))%R.
Proof.
  intros Hx. rewrite <- (Rpower_O x) at 1 by lra.
  apply Rle_Rpower; lra.
Qed.

Lemma fdiv_finite (n d : R) : d <> 0%R -> fdiv n d = Finite (n / d).
Proof.
  intros Hd. unfold fdiv. destruct (Req_dec_T d 0); [contradiction | reflexivity].
Qed.

Lemma curverad_finite (fit_cr : Fit) (y_eval : Q) :
  ~ (fit0 fit_cr == 0)%Q ->
  exists r : R,
    curverad fit_cr y_eval = Finite r
    /\ (1 / Rabs (2 * Q2R (fit0 fit_cr)) <= r)%R.
Proof.
  intros Ha. pose proof (Q2R_nonzero _ Ha) as Ha'.
  assert (Hd : (0 < Rabs (2 * Q2R (fit0 fit_cr)))%R)
    by (apply Rabs_pos_lt; lra).
  unfold curverad. rewrite fdiv_finite by lra.
  eexists. split; [reflexivity |].
  apply Rmult_le_compat_r; [left; now apply Rinv_0_lt_compat |].
  apply Rpower_ge_1.
  match goal with |- (1 <= 1 + ?s * ?s)%R => pose proof (Rle_0_sqr s) as Hs end.
  unfold Rsqr in Hs. lra.
Qed.

Lemma Qlt_bool_comp (p p' q q' : Q) :
  (p == p')%Q -> (q == q')%Q -> Qlt_bool p q = Qlt_bool p' q'.
Proof.
  intros Hp Hq.
  destruct (Qlt_bool p q) eqn:E1; destruct (Qlt_bool p' q') eqn:E2;
    try reflexivity; exfalso.
  - apply Qlt_bool_iff in E1. rewrite Hp, Hq in E1.
    apply Qlt_bool_iff in E1. congruence.
  - apply Qlt_bool_iff in E2. rewrite <- Hp, <- Hq in E2.
    apply Qlt_bool_iff in E2. congruence.
Qed.

Lemma rint_comp (q q' : Q) : (q == q')%Q -> rint q = rint q'.
Proof.
  intros H. unfold rint. rewrite (Qfloor_comp _ _ H).
  rewrite (Qlt_bool_comp (q - inject_Z (Qfloor q')) (q' - inject_Z (Qfloor q'))
             (1 # 2) (1 # 2)) by (rewrite ?H; reflexivity).
  rewrite (Qlt_bool_comp (1 # 2) (1 # 2)
             (q - inject_Z (Qfloor q')) (q' - inject_Z (Qfloor q')))
    by (rewrite ?H; reflexivity).
  reflexivity.
Qed.

Lemma round2_comp (q q' : Q) : (q == q')%Q -> round2 q = round2 q'.
Proof.
  intros H. unfold round2. rewrite (rint_comp (q * 100) (q' * 100)); [reflexivity |].
  now rewrite H.
Qed.

End Geometry.

(** X9.  On a frame of at least three rows [curvature_in_meters] never
    raises, whatever the two fits: the two refits of lines 451-452 have
    enough rows, and the call returns two radii, neither of them NaN, and
    a lateral offset. *)
Theorem curvature_in_meters_returns (bw : Image) (lf rf : Fit) :
  3 <= height bw ->
  exists (l r : float) (d : Q),
    curvature_in_meters bw lf rf = Ok (l, r, d) /\ l <> NaN /\ r <> NaN.
Proof.
  intros Hh.
  exists (curverad (unit_conversion lf) (inject_Z (height bw - 1))),
         (curverad (unit_conversion rf) (inject_Z (height bw - 1))),
         (dist_from_center (height bw) (width bw) lf rf).
  split; [| split; apply curverad_not_nan].
  unfold curvature_in_meters.
  change (shape bw) with (height bw, width bw). cbv beta iota.
  rewrite !metric_fit_conversion by exact Hh. cbn [bind].
  rewrite qmax_linspace0 by lia. reflexivity.
Qed.

Lemma curvature_in_meters_returns_witness :
  3 <= height two_columns
  /\ exists (l r : float) (d : Q),
       curvature_in_meters two_columns (mkFit 0 0 1) (mkFit 0 0 2)
       = Ok (l, r, d) /\ l <> NaN /\ r <> NaN.
Proof.
  assert (H : 3 <= height two_columns) by (vm_compute; discriminate).
  split; [exact H |].
  exact (curvature_in_meters_returns two_columns _ _ H).
Defined.

(** X10.  When the metric fit's leading coefficient [a] is not 0 the radius
    of curvature is a finite positive number, at least [1 / |2a|]. *)
Theorem curverad_lower_bound (fit_cr : Fit) (y_eval : Q) :
  ~ (fit0 fit_cr == 0)%Q ->
  exists r : R,
    curverad fit_cr y_eval = Finite r
    /\ (0 < r)%R
    /\ (1 / Rabs (2 * Q2R (fit0 fit_cr)) <= r)%R.
Proof.
  intros Ha. destruct (curverad_finite fit_cr y_eval Ha) as (r & E & Hr).
  exists r. split; [exact E |]. split; [| exact Hr].
  pose proof (Q2R_nonzero _ Ha) as Ha'.
  assert (Hd : (0 < Rabs (2 * Q2R (fit0 fit_cr)))%R)
    by (apply Rabs_pos_lt; lra).
  eapply Rlt_le_trans; [| exact Hr].
  apply Rdiv_lt_0_compat; lra.
Qed.

Lemma curverad_lower_bound_witness :
  ~ (fit0 (mkFit 1 0 0) == 0)%Q
  /\ exists r : R,
       curverad (mkFit 1 0 0) 0 = Finite r
       /\ (0 < r)%R
       /\ (1 / Rabs (2 * Q2R (fit0 (mkFit 1 0 0))) <= r)%R.
Proof.
  assert (H : ~ (fit0 (mkFit 1 0 0) == 0)%Q) by (cbn; discriminate).
  split; [exact H |].
  exact (curverad_lower_bound (mkFit 1 0 0) 0 H).
Defined.

(** X11.  The radius of curvature is unsigned: mirroring the lane (negating
    the coefficients [a] and [b]) leaves it unchanged. *)
Theorem curverad_mirror (fit_cr : Fit) (y_eval : Q) :
  curverad (mkFit (- fit0 fit_cr) (- fit1 fit_cr) (fit2 fit_cr)) y_eval
  = curverad fit_cr y_eval.
Proof.
  unfold curverad. cbn [fit0 fit1]. rewrite !Q2R_opp.
  set (a := Q2R (fit0 fit_cr)). set (b := Q2R (fit1 fit_cr)).
  replace (Rabs (2 * - a))%R with (Rabs (2 * a))%R
    by (rewrite <- Rabs_Ropp; f_equal; lra).
  f_equal. f_equal. ring.
Qed.

(** X12.  The reported lateral offset differs from the unrounded offset
    by at most 0.005 m. *)
Theorem dist_from_center_error (h w : Z) (lf rf : Fit) :
  let exact :=
    ((inject_Z (w / 2)
      - (poly_eval lf (inject_Z h) + poly_eval rf (inject_Z h)) / 2)
     * xm_per_pix)%Q in
  (- (1 # 200) <= dist_from_center h w lf rf - exact <= 1 # 200)%Q.
Proof. cbv zeta. unfold dist_from_center. apply round2_error. Qed.

(** X13.  The lateral offset does not depend on which of the two fits is
    passed as the left one. *)
Theorem dist_from_center_swap (h w : Z) (lf rf : Fit) :
  dist_from_center h w lf rf = dist_from_center h w rf lf.
Proof.
  unfold dist_from_center. apply round2_comp.
  generalize (inject_Z (w / 2)) (poly_eval lf (inject_Z h))
    (poly_eval rf (inject_Z h)).
  intros m l r. unfold xm_per_pix. field.
Qed.

(** X14.  [get_curvature_radius] divides by the constant coefficient [c]
    of the line, not by the leading one: it returns [inf] exactly when
    [c = 0], a finite positive number otherwise (also for a straight
    line), and never NaN. *)
Theorem get_curvature_radius_constant (line : Fit) (y : Q) :
  ((fit2 line == 0)%Q <-> get_curvature_radius line y = PosInf)
  /\ get_curvature_radius line y <> NaN
  /\ (~ (fit2 line == 0)%Q ->
      exists r : R, get_curvature_radius line y = Finite r /\ (0 < r)%R).
Proof.
  unfold get_curvature_radius. cbv zeta.
  set (n := Rpower _ _).
  assert (Hn : (0 < n)%R) by apply Rpower_pos.
  assert (Hfin : ~ (fit2 line == 0)%Q ->
                 exists r : R,
                   fdiv n (Rabs (2 * Q2R (fit2 line))) = Finite r /\ (0 < r)%R).
  { intros Hc. pose proof (Q2R_nonzero _ Hc) as Hc'.
    assert (Hd : (0 < Rabs (2 * Q2R (fit2 line)))%R)
      by (apply Rabs_pos_lt; lra).
    rewrite fdiv_finite by lra. eexists. split; [reflexivity |].
    apply Rdiv_lt_0_compat; lra. }
  split; [| split; [now apply fdiv_pos_not_nan | exact Hfin]].
  split.
  - intros Hc. rewrite (Qeq_eqR _ _ Hc).
    replace (Q2R 0) with 0%R by (unfold Q2R; simpl; lra).
    rewrite Rmult_0_r, Rabs_R0. now apply fdiv_pos_zero.
  - intros E. destruct (Qeq_dec (fit2 line) 0) as [Hc | Hc]; [exact Hc |].
    destruct (Hfin Hc) as (r & Er & _). rewrite Er in E. discriminate.
Qed.

(** ** Rescaled gradients, thresholds and the perspective quadrilaterals *)

Section RescaleRange.
Local Open Scope R_scope.

Lemma Int_part_range (r : R) :
  0 <= r <= 255 -> (0 <= Int_part r <= 255)%Z.
Proof.
  intros [H0 H1]. destruct (base_Int_part r) as [Hlo Hhi]. split.
  - assert (H : (-1 < Int_part r)%Z) by (apply lt_IZR; lra). lia.
  - apply le_IZR. lra.
Qed.

Lemma Int_part_255 : Int_part 255 = 255%Z.
Proof.
  destruct (base_Int_part 255) as [Hlo Hhi].
  assert (H1 : (Int_part 255 <= 255)%Z) by (apply le_IZR; lra).
  assert (H2 : (254 < Int_part 255)%Z) by (apply lt_IZR; lra).
  lia.
Qed.

Lemma to_uint8_range (special : Z) (r : R) :
  0 <= r <= 255 -> (0 <= to_uint8 special (Finite r) <= 255)%Z.
Proof.
  intros Hr. pose proof (Int_part_range r Hr) as H.
  unfold to_uint8. rewrite Z.mod_small by lia. lia.
Qed.

Lemma to_uint8_255 (special : Z) : to_uint8 special (Finite 255) = 255%Z.
Proof. unfold to_uint8. rewrite Int_part_255. reflexivity. Qed.

Lemma quotient_range (v m : R) :
  0 <= v <= m -> 0 < m -> 0 <= 255 * v / m <= 255.
Proof.
  intros Hv Hm. split.
  - apply Rmult_le_pos; [lra | left; now apply Rinv_0_lt_compat].
  - apply (Rmult_le_reg_r m); [exact Hm |]. field_simplify; lra.
Qed.

Lemma rescale_abs_sobel_pixel (abs_sobel : list R) (v : R) :
  0 < np_max abs_sobel ->
  fdiv (255 * v) (np_max abs_sobel) = Finite (255 * v / np_max abs_sobel).
Proof. intros Hm. apply fdiv_finite. lra. Qed.

Lemma rescale_magnitude_pixel (magnitude : list R) (v : R) :
  0 < np_max magnitude ->
  fdiv v (np_max magnitude / 255) = Finite (255 * v / np_max magnitude).
Proof.
  intros Hm. rewrite fdiv_finite by lra. f_equal. field. lra.
Qed.

End RescaleRange.

Section RescaleFrame.

Lemma in_np_max_bounds (l : list R) (v : R) :
  Forall (fun x => (0 <= x)%R) l -> In v l -> (0 <= v <= np_max l)%R.
Proof.
  intros Hpos Hv. rewrite Forall_forall in Hpos.
  split; [now apply Hpos | now apply np_max_ge].
Qed.

Lemma scaled_sobel_nth (special : Z) (abs_sobel : list R) (i : nat) (v : R) :
  (0 < np_max abs_sobel)%R ->
  nth_error abs_sobel i = Some v ->
  nth_error (scaled_sobel special abs_sobel) i
  = Some (to_uint8 special (Finite (255 * v / np_max abs_sobel))).
Proof.
  intros Hm Hv. unfold scaled_sobel, rescale_abs_sobel.
  rewrite !nth_error_map, Hv. cbn [option_map].
  now rewrite rescale_abs_sobel_pixel.
Qed.

Lemma scaled_magnitude_nth (special : Z) (magnitude : list R) (i : nat)
    (v : R) :
  (0 < np_max magnitude)%R ->
  nth_error magnitude i = Some v ->
  nth_error (scaled_magnitude special magnitude) i
  = Some (to_uint8 special (Finite (255 * v / np_max magnitude))).
Proof.
  intros Hm Hv. unfold scaled_magnitude, rescale_magnitude. cbv zeta.
  rewrite !nth_error_map, Hv. cbn [option_map].
  now rewrite rescale_magnitude_pixel.
Qed.

Lemma max_quotient (m : R) : (0 < m)%R -> (255 * m / m = 255)%R.
Proof. intros Hm. field. lra. Qed.

End RescaleFrame.

Lemma np_max_ramp : np_max ramp_channel = 2%R.
Proof.
  unfold ramp_channel, np_max. cbn [fold_left].
  rewrite (Rmax_right 0 1) by lra. apply Rmax_right. lra.
Qed.

Lemma ramp_nonneg : Forall (fun x => (0 <= x)%R) ramp_channel.
Proof. repeat constructor; lra. Qed.

(** X15.  When the channel's maximum is positive, the rescaling of
    [abs_sobel_thresh] and that of [mag_thresh] give every pixel an 8-bit
    value in 0..255 (no wrap-around in the cast); a pixel that attains
    the maximum gets 255 from [255 * v / max], and at least 254 from
    [v / (max / 255)] (the statement leaves room for a float64 quotient
    that falls just below 255 before the truncating cast). *)
Theorem rescaled_gradient_range (special : Z) (channel : list R) (i : nat)
    (v : R) :
  Forall (fun x => (0 <= x)%R) channel ->
  (0 < np_max channel)%R ->
  nth_error channel i = Some v ->
  exists s m : Z,
    nth_error (scaled_sobel special channel) i = Some s
    /\ nth_error (scaled_magnitude special channel) i = Some m
    /\ 0 <= s <= 255 /\ 0 <= m <= 255
    /\ (v = np_max channel -> s = 255 /\ 254 <= m).
Proof.
  intros Hpos Hm Hv.
  pose proof (in_np_max_bounds channel v Hpos (nth_error_In _ _ Hv)) as Hb.
  exists (to_uint8 special (Finite (255 * v / np_max channel))),
         (to_uint8 special (Finite (255 * v / np_max channel))).
  split; [now apply scaled_sobel_nth |].
  split; [now apply scaled_magnitude_nth |].
  split; [apply to_uint8_range, quotient_range; assumption |].
  split; [apply to_uint8_range, quotient_range; assumption |].
  intros ->. rewrite max_quotient by exact Hm.
  rewrite to_uint8_255. split; [reflexivity | lia].
Qed.

Lemma rescaled_gradient_range_witness :
  Forall (fun x => (0 <= x)%R) ramp_channel
  /\ (0 < np_max ramp_channel)%R
  /\ nth_error ramp_channel 2 = Some 2%R
  /\ exists s m : Z,
       nth_error (scaled_sobel 0 ramp_channel) 2 = Some s
       /\ nth_error (scaled_magnitude 0 ramp_channel) 2 = Some m
       /\ 0 <= s <= 255 /\ 0 <= m <= 255
       /\ (2%R = np_max ramp_channel -> s = 255 /\ 254 <= m).
Proof.
  assert (H1 : Forall (fun x => (0 <= x)%R) ramp_channel) by apply ramp_nonneg.
  assert (H2 : (0 < np_max ramp_channel)%R) by (rewrite np_max_ramp; lra).
  assert (H3 : nth_error ramp_channel 2 = Some 2%R) by reflexivity.
  split; [exact H1 |]. split; [exact H2 |]. split; [exact H3 |].
  exact (rescaled_gradient_range 0 ramp_channel 2 2%R H1 H2 H3).
Defined.

(** X16.  With the default thresholds, a pixel that attains the channel's
    maximum gradient is never selected by the gradient masks: its rescaled
    value 255 lies above both ranges [20,100] and [30,100]. *)
Theorem strongest_gradient_masked_out (special : Z) (channel : list R)
    (i : nat) :
  Forall (fun x => (0 <= x)%R) channel ->
  (0 < np_max channel)%R ->
  nth_error channel i = Some (np_max channel) ->
  nth_error (map (abs_sobel_thresh (abs_thresh default_thresholds))
                 (scaled_sobel special channel)) i = Some 0
  /\ nth_error (map (mag_thresh (magnitude_thresh default_thresholds))
                    (scaled_magnitude special channel)) i = Some 0.
Proof.
  intros Hpos Hm Hv.
  rewrite !nth_error_map.
  rewrite (scaled_sobel_nth special channel i _ Hm Hv).
  rewrite (scaled_magnitude_nth special channel i _ Hm Hv).
  rewrite max_quotient by exact Hm. rewrite to_uint8_255.
  split; reflexivity.
Qed.

Lemma strongest_gradient_witness :
  Forall (fun x => (0 <= x)%R) ramp_channel
  /\ (0 < np_max ramp_channel)%R
  /\ nth_error ramp_channel 2 = Some (np_max ramp_channel)
  /\ nth_error (map (abs_sobel_thresh (abs_thresh default_thresholds))
                    (scaled_sobel 0 ramp_channel)) 2 = Some 0.
Proof.
  assert (H1 : Forall (fun x => (0 <= x)%R) ramp_channel) by apply ramp_nonneg.
  assert (H2 : (0 < np_max ramp_channel)%R) by (rewrite np_max_ramp; lra).
  assert (H3 : nth_error ramp_channel 2 = Some (np_max ramp_channel))
    by (rewrite np_max_ramp; reflexivity).
  split; [exact H1 |]. split; [exact H2 |]. split; [exact H3 |].
  exact (proj1 (strongest_gradient_masked_out 0 ramp_channel 2 H1 H2 H3)).
Defined.

(** X17.  Widening threshold ranges never removes a pixel from the combined
    mask. *)
Theorem combined_pixel_monotone (t t' : Thresholds) (p : Features) :
  thresholds_within t t' ->
  combined_pixel t p = 1 -> combined_pixel t' p = 1.
Proof.
  unfold thresholds_within, range_within, qrange_within.
  rewrite !combined_pixel_formula.
  destruct (abs_thresh t) as [a0 a1], (abs_thresh t') as [a0' a1'],
    (magnitude_thresh t) as [m0 m1], (magnitude_thresh t') as [m0' m1'],
    (angle_thresh t) as [d0 d1], (angle_thresh t') as [d0' d1'],
    (h_thresh t) as [h0 h1], (h_thresh t') as [h0' h1'],
    (s_thresh t) as [s0 s1], (s_thresh t') as [s0' s1'].
  cbn [fst snd].
  rewrite !abs_sobel_thresh_range, ?mag_thresh_range, !dir_thresh_range,
    !hue_thresh_range, ?saturation_thresh_range.
  intros (Ha & Hm & Hd & Hh & Hs) [(H1 & H2 & H3 & H4 & H5) | (H1 & H2)].
  - left. repeat split; try lia.
    + eapply Qle_trans; [apply Hd | exact H4].
    + eapply Qle_trans; [exact H5 | apply Hd].
  - right. lia.
Qed.

Lemma combined_pixel_monotone_witness :
  thresholds_within default_thresholds wide_thresholds
  /\ combined_pixel default_thresholds yellow_pixel = 1
  /\ combined_pixel wide_thresholds yellow_pixel = 1.
Proof.
  assert (H1 : thresholds_within default_thresholds wide_thresholds).
  { unfold thresholds_within, range_within, qrange_within. cbn.
    repeat split; try lia; discriminate. }
  assert (H2 : combined_pixel default_thresholds yellow_pixel = 1)
    by (vm_compute; reflexivity).
  split; [exact H1 |]. split; [exact H2 |].
  exact (combined_pixel_monotone _ _ yellow_pixel H1 H2).
Defined.

Ltac quad_lra :=
  unfold Qdiv in *;
  change (/ 2)%Q with (1 # 2)%Q in *;
  change (/ 4)%Q with (1 # 4)%Q in *;
  change (/ 6)%Q with (1 # 6)%Q in *;
  Lqa.lra.

(** X18.  The destination quadrilateral always lies inside the frame; the
    source quadrilateral lies inside the frame exactly when the frame is
    at least 360 px wide and 200 px high; and the source quadrilateral
    collapses onto the bottom row exactly when the height is 200. *)
Theorem perspective_quads_in_frame (W H : Z) :
  0 <= W -> 0 <= H ->
  Forall (in_frame W H) (destination_quad W H)
  /\ (Forall (in_frame W H) (source_quad W H) <-> 360 <= W /\ 200 <= H)
  /\ ((forall p, In p (source_quad W H) -> (snd p == inject_Z H)%Q)
      <-> H = 200).
Proof.
  intros HW HH.
  assert (HWq : (0 <= inject_Z W)%Q) by (change 0%Q with (inject_Z 0); now rewrite <- Zle_Qle).
  assert (HHq : (0 <= inject_Z H)%Q) by (change 0%Q with (inject_Z 0); now rewrite <- Zle_Qle).
  assert (EW : 360 <= W <-> (360 <= inject_Z W)%Q)
    by (rewrite Zle_Qle; reflexivity).
  assert (EH : 200 <= H <-> (200 <= inject_Z H)%Q)
    by (rewrite Zle_Qle; reflexivity).
  assert (EH2 : H = 200 <-> (inject_Z H == 200)%Q)
    by (symmetry; apply (inject_Z_injective H 200)).
  unfold destination_quad, source_quad, in_frame.
  revert HWq HHq EW EH EH2. generalize (inject_Z W) (inject_Z H).
  intros w h HWq HHq EW EH EH2.
  split; [| split].
  - repeat (apply Forall_cons; [cbn [fst snd]; repeat split; quad_lra |]).
    apply Forall_nil.
  - rewrite EW, EH. split.
    + intros HF. inversion HF as [| ? ? (_ & _ & _ & Hy1) HF1]; subst.
      inversion HF1 as [| ? ? _ HF2]; subst.
      inversion HF2 as [| ? ? (_ & Hx3 & _) _]; subst.
      cbn [fst snd] in *. split; quad_lra.
    + intros [H1 H2].
      repeat (apply Forall_cons; [cbn [fst snd]; repeat split; quad_lra |]).
      apply Forall_nil.
  - rewrite EH2. split.
    + intros Hall. specialize (Hall _ (or_introl eq_refl)).
      cbn [snd] in Hall. quad_lra.
    + intros E p Hp. cbn [In] in Hp.
      destruct Hp as [<- | [<- | [<- | [<- | []]]]]; cbn [snd]; quad_lra.
Qed.

Lemma perspective_quads_witness :
  0 <= 1280 /\ 0 <= 720
  /\ Forall (in_frame 1280 720) (destination_quad 1280 720).
Proof.
  assert (H1 : 0 <= 1280) by lia. assert (H2 : 0 <= 720) by lia.
  split; [exact H1 |]. split; [exact H2 |].
  exact (proj1 (perspective_quads_in_frame 1280 720 H1 H2)).
Defined.

(** ** Drift of the window centres *)

Section CentreDrift.

Lemma zsum_bounds (lo hi : Z) (xs : list Z) :
  Forall (fun x => lo <= x <= hi) xs ->
  Z.of_nat (length xs) * lo <= Np.zsum xs <= Z.of_nat (length xs) * hi.
Proof.
  induction 1 as [| x xs Hx _ IH]; [simpl; lia |].
  cbn [length Np.zsum fold_right]. fold (Np.zsum xs).
  rewrite Nat2Z.inj_succ. nia.
Qed.

Lemma good_inds_x_window (img : Image) (h wh window c : Z) :
  Forall (fun x => c - 100 <= x <= c + 99)
         (map snd (good_inds h wh window c (Np.nonzero img))).
Proof.
  apply Forall_forall. intros x Hx. apply in_map_iff in Hx.
  destruct Hx as (p & <- & Hp). apply good_inds_In in Hp.
  unfold margin in Hp. lia.
Qed.

Lemma recenter_within (img : Image) (h wh window c : Z) :
  let c' := recenter c (good_inds h wh window c (Np.nonzero img)) in
  c - 100 <= c' <= c + 99 /\ (0 <= c -> 0 <= c').
Proof.
  cbv zeta. unfold recenter, minpix.
  set (good := good_inds h wh window c (Np.nonzero img)).
  destruct (50 <? Z.of_nat (length good)) eqn:Hn;
    [apply Z.ltb_lt in Hn | split; lia].
  pose proof (int_mean_bounds (map snd good)) as Hm.
  pose proof (zsum_bounds _ _ _ (good_inds_x_window img h wh window c)) as Hs.
  fold good in Hs. rewrite length_map in Hm, Hs.
  assert (Hne : map snd good <> [])
    by (destruct good; simpl in *; [lia | discriminate]).
  specialize (Hm Hne (good_inds_x_nonneg img h wh window c)). cbv zeta in Hm.
  pose proof (zsum_nonneg _ (good_inds_x_nonneg img h wh window c)) as H0.
  fold good in H0.
  split; [split |]; nia.
Qed.

Lemma window_state_drift (bw : Image) (lb rb : Z) (n : nat) :
  let s := window_state bw lb rb (Z.of_nat n) in
  (lb - 100 * Z.of_nat n <= leftx_current s <= lb + 99 * Z.of_nat n)
  /\ (rb - 100 * Z.of_nat n <= rightx_current s <= rb + 99 * Z.of_nat n)
  /\ (0 <= lb -> 0 <= leftx_current s)
  /\ (0 <= rb -> 0 <= rightx_current s).
Proof.
  cbv zeta. induction n as [| n (IHl & IHr & IHl0 & IHr0)].
  - cbn. repeat split; lia.
  - rewrite Nat2Z.inj_succ. unfold Z.succ.
    rewrite window_state_succ by lia. unfold window_step.
    cbn [leftx_current rightx_current].
    set (s := window_state bw lb rb (Z.of_nat n)) in *.
    destruct (recenter_within bw (height bw) (window_height bw)
                (Z.of_nat n) (leftx_current s)) as (Hl & Hl0).
    destruct (recenter_within bw (height bw) (window_height bw)
                (Z.of_nat n) (rightx_current s)) as (Hr & Hr0).
    repeat split; try lia; auto.
Qed.

End CentreDrift.

(** X19.  From one window to the next a lane's centre moves by at most 100
    px to the left and 99 px to the right, so after [n] windows it is
    within [100 * n] px of the base; and a centre never becomes negative. *)
Theorem window_centres_drift (bw : Image) (lb rb : Z) (n : nat) :
  let s := window_state bw lb rb (Z.of_nat n) in
  let s' := window_state bw lb rb (Z.of_nat n + 1) in
  (leftx_current s - 100 <= leftx_current s' <= leftx_current s + 99)
  /\ (rightx_current s - 100 <= rightx_current s' <= rightx_current s + 99)
  /\ (lb - 100 * Z.of_nat n <= leftx_current s <= lb + 99 * Z.of_nat n)
  /\ (rb - 100 * Z.of_nat n <= rightx_current s <= rb + 99 * Z.of_nat n)
  /\ (0 <= lb -> 0 <= leftx_current s)
  /\ (0 <= rb -> 0 <= rightx_current s).
Proof.
  cbv zeta.
  destruct (window_state_drift bw lb rb n) as (H1 & H2 & H3 & H4).
  rewrite window_state_succ by lia. unfold window_step.
  cbn [leftx_current rightx_current].
  split; [apply recenter_within |]. split; [apply recenter_within |].
  repeat split; auto; lia.
Qed.
